(** * Cyberbrain execution logger: a shallow embedding of
      [cyberbrain/execution_log.py] and the properties of its scan driver.

    The development has three layers:
    - [Py]: the fragment of the Python runtime the logger runs on: values,
      a heap of mutable objects, exceptions, dictionary membership and
      [copy.deepcopy];
    - the logger itself ([Logger], [detect_chanages], [_log_changed_value],
      [_record_jump_location_if_exists], [_deepcopy_from_frame]), written in a
      state-and-exception monad over the logger object and the heap;
    - the theorems. *)

From Stdlib Require Import ZArith.
From stdpp Require Import gmap strings list fin_maps.

Local Open Scope Z_scope.
Set Warnings "-register-all,-clear-no-such-hyp".

(* ===================================================================== *)
(** * The Python runtime fragment *)
(* ===================================================================== *)

Module Py.

(** Heap addresses play the role of [id(x)]. *)
Abbreviation loc := nat.

(** A Python value: an immutable atom, or a reference to a mutable object of
    the heap.  Two references to the same address are aliases. *)
Inductive Value :=
| VNone
| VInt (z : Z)
| VStr (s : string)
| VRef (l : loc).

#[global] Instance Value_eq_dec : EqDecision Value.
Proof. solve_decision. Defined.

(** A heap object, by what [copy.deepcopy] does with it:
    - a [list], copied item by item;
    - an instance of a class that defines no copy hook of its own
      ([__deepcopy__], [__reduce_ex__], [__getstate__], ...), copied
      attribute by attribute; [hashes] tells whether the class keeps
      [__hash__];
    - a function or a class, which [deepcopy] returns as it is, attributes
      and all (as it does any object whose [__deepcopy__] returns the object
      itself);
    - a module, generator, frame or the like, which [deepcopy] cannot copy
      and raises [TypeError] on.
    Instances whose copy hooks run code of their own are outside this
    model. *)
Inductive Obj :=
| OList (items : list Value)
| OInst (cls : string) (hashes : bool) (names : list string)
        (vals : list Value)
| OShared (kind : string) (names : list string) (vals : list Value)
| OOpaque (kind : string).

#[global] Instance Obj_eq_dec : EqDecision Obj.
Proof. solve_decision. Defined.

Abbreviation Heap := (gmap nat Obj).

(** The values an object holds, and the same object around other values. *)
Definition obj_fields (o : Obj) : list Value :=
  match o with
  | OList items => items
  | OInst _ _ _ vals => vals
  | OShared _ _ vals => vals
  | OOpaque _ => []
  end.

Definition obj_with_fields (o : Obj) (vs : list Value) : Obj :=
  match o with
  | OList _ => OList vs
  | OInst c b ns _ => OInst c b ns vs
  | OShared k ns _ => OShared k ns vs
  | OOpaque k => OOpaque k
  end.

(** The objects [deepcopy] makes a copy of. *)
Definition copied_kind (o : Obj) : bool :=
  match o with
  | OList _ | OInst _ _ _ _ => true
  | OShared _ _ _ | OOpaque _ => false
  end.

(** The exceptions that can leave the logger.  [StackError] stands for
    whatever the value stack raises on its own; [DanglingRef] marks a
    reference to an address the heap does not hold, which no Python run
    produces; [OutOfFuel] is what the copier raises when its fuel runs out,
    which it never does in [deepcopy] (the recursion limit of the
    interpreter is not modelled). *)
Inductive Exn :=
| KeyError
| TypeError
| IndexError
| StackError (msg : string)
| DanglingRef
| OutOfFuel.

#[global] Instance Exn_eq_dec : EqDecision Exn.
Proof. solve_decision. Defined.

Inductive Result (A : Type) :=
| Ok (a : A)
| Raise (e : Exn).
Arguments Ok {A} a.
Arguments Raise {A} e.

(** ** Dictionaries keyed by names

    [f_locals], [f_globals] and [f_builtins] are dicts whose keys are
    strings.  A key that is not a string is never found; a [list] does not
    hash, nor does an instance of a class without [__hash__]; functions,
    classes, modules, generators and frames hash. *)
Definition hashable (h : Heap) (k : Value) : bool :=
  match k with
  | VRef l => match h !! l with
              | Some (OList _) => false
              | Some (OInst _ b _ _) => b
              | _ => true
              end
  | _ => true
  end.

Definition dict_lookup (d : gmap string Value) (k : Value) : option Value :=
  match k with
  | VStr s => d !! s
  | _ => None
  end.

(** [k in d] *)
Definition dict_contains (h : Heap) (d : gmap string Value) (k : Value)
  : Result bool :=
  if hashable h k then Ok (bool_decide (is_Some (dict_lookup d k)))
  else Raise TypeError.

(** [d[k]] *)
Definition dict_getitem (h : Heap) (d : gmap string Value) (k : Value)
  : Result Value :=
  if hashable h k then
    match dict_lookup d k with
    | Some v => Ok v
    | None => Raise KeyError
    end
  else Raise TypeError.

(** ** [copy.deepcopy]

    The copier threads the heap it allocates in and the memo, a map from the
    address of each object already copied to the address of its copy; an
    exception leaves it with the state reached.  Atoms are returned as they
    are.  A reference found in the memo is answered from it.  Otherwise the
    object decides: a function or class is returned as it is and not
    entered into the memo; a module or the like raises [TypeError]; a list
    or instance gets a fresh, empty copy, which is entered into the memo
    before the fields are copied (so cycles and sharing are preserved), and
    is filled afterwards.

    Objects are read from [src], the heap at the time of the call: the
    copier never writes to an address of [src].  [fuel] bounds the nesting
    of objects not yet in the memo; [deepcopy] provides enough of it.  When
    the copier raises, the copies it had made are unreachable garbage and
    the heap is the one of the call. *)
Abbreviation CopySt := (gmap nat Obj * gmap nat nat)%type.

Fixpoint copy_list (cp : Value → CopySt → Result Value * CopySt)
    (vs : list Value) (st : CopySt) : Result (list Value) * CopySt :=
  match vs with
  | [] => (Ok [], st)
  | x :: xs =>
      match cp x st with
      | (Raise e, st') => (Raise e, st')
      | (Ok x', st') =>
          match copy_list cp xs st' with
          | (Raise e, st'') => (Raise e, st'')
          | (Ok xs', st'') => (Ok (x' :: xs'), st'')
          end
      end
  end.

Fixpoint copy_val (src : Heap) (fuel : nat) (v : Value) (st : CopySt)
  : Result Value * CopySt :=
  match v with
  | VRef l =>
      match st.2 !! l with
      | Some l' => (Ok (VRef l'), st)
      | None =>
          match src !! l with
          | None => (Raise DanglingRef, st)
          | Some (OShared _ _ _) => (Ok (VRef l), st)
          | Some (OOpaque _) => (Raise TypeError, st)
          | Some o =>
              match fuel with
              | O => (Raise OutOfFuel, st)
              | S f =>
                  let l' := fresh (dom st.1) in
                  let st1 := (<[l' := obj_with_fields o []]> st.1,
                              <[l := l']> st.2) in
                  match copy_list (copy_val src f) (obj_fields o) st1 with
                  | (Raise e, st2) => (Raise e, st2)
                  | (Ok vs', st2) =>
                      (Ok (VRef l'),
                       (<[l' := obj_with_fields o vs']> st2.1, st2.2))
                  end
              end
          end
      end
  | _ => (Ok v, st)
  end.

Definition deepcopy (h : Heap) (v : Value) : Result Value * Heap :=
  match copy_val h (size h) v (h, ∅) with
  | (Ok v', st) => (Ok v', st.1)
  | (Raise e, _) => (Raise e, h)
  end.

(** ** Reading a value off the heap

    [read n h v] is what [v] looks like in [h], down to [n] levels of
    objects: the observable content of a value, whatever addresses hold it. *)
Inductive Tree :=
| TNone
| TInt (z : Z)
| TStr (s : string)
| TList (items : list Tree)
| TInst (cls : string) (names : list string) (vals : list Tree)
| TShared (kind : string) (names : list string) (vals : list Tree)
| TOpaque (kind : string)
| TDeeper
| TDangling.

Definition tree_of_obj (o : Obj) (ts : list Tree) : Tree :=
  match o with
  | OList _ => TList ts
  | OInst c _ ns _ => TInst c ns ts
  | OShared k ns _ => TShared k ns ts
  | OOpaque k => TOpaque k
  end.

Fixpoint read (n : nat) (h : Heap) (v : Value) : Tree :=
  match v with
  | VNone => TNone
  | VInt z => TInt z
  | VStr s => TStr s
  | VRef l =>
      match n with
      | O => TDeeper
      | S n' =>
          match h !! l with
          | None => TDangling
          | Some o => tree_of_obj o (read n' h <$> obj_fields o)
          end
      end
  end.

(** References of a value, and heaps whose references all point inside. *)
Definition val_in (D : gset nat) (v : Value) : Prop :=
  match v with
  | VRef l => l ∈ D
  | _ => True
  end.

Definition heap_closed (h : Heap) : Prop :=
  ∀ l o, h !! l = Some o → Forall (val_in (dom h)) (obj_fields o).

End Py.

Import Py.

(* ===================================================================== *)
(** * The logger *)
(* ===================================================================== *)

(** [dis.Instruction], with the fields the logger reads. *)
Record Instruction := mkInstruction {
  opname : string;
  opcode : Z;
  arg : option Z;
  argval : Value;
  offset : Z
}.

(** Modelled from the spec: [Mutation] of [cyberbrain/basis.py], a record of
    what changed ([target]), its snapshot ([value]) and the value that
    produced the change ([source]). *)
Record Mutation := mkMutation {
  target : Value;
  value : Value;
  source : Value
}.

#[global] Instance Mutation_eq_dec : EqDecision Mutation.
Proof. solve_decision. Defined.

(** [FrameType], with the fields the logger reads: [f_code] is the decoded
    instruction stream [dis.get_instructions(frame.f_code)]. *)
Record Frame := mkFrame {
  f_lasti : Z;
  f_code : list Instruction;
  f_locals : gmap string Value;
  f_globals : gmap string Value;
  f_builtins : gmap string Value
}.

(** [ValueStack] of [cyberbrain/value_stack.py] is a parameter of the
    logger, through the interface the logger calls: the constructor,
    [handle_instruction], which updates the stack in place and may raise,
    leaving the stack in some state, and [tos] and [tos1], which only
    read. *)
Class ValueStack (VS : Type) := {
  vs_new : VS;
  vs_handle_instruction : Instruction → VS → Result unit * VS;
  vs_tos : VS → Result Value;
  vs_tos1 : VS → Result Value
}.

(** Modelled from the spec: the Operand Stack Simulator as a LIFO list, top
    first, whose [tos] and [tos1] fail on a stack with too few entries; the
    stack effect of each instruction is a table [effect] given from outside
    (the spec names no table). *)
Definition list_stack
    (effect : Instruction → list Value → Result (list Value))
  : ValueStack (list Value) := {|
  vs_new := [];
  vs_handle_instruction i s :=
    match effect i s with
    | Ok s' => (Ok tt, s')
    | Raise e => (Raise e, s)
    end;
  vs_tos s := match s with
              | x :: _ => Ok x
              | [] => Raise IndexError
              end;
  vs_tos1 s := match s with
               | _ :: y :: _ => Ok y
               | _ => Raise IndexError
               end
|}.

Section Logger.

Context {VS : Type} `{!ValueStack VS}.

(** [dis.hasjrel] and [dis.hasjabs]: the opcodes of the relative and of the
    absolute jumps of the interpreter in use. *)
Context (hasjrel hasjabs : list Z).

Record Logger := mkLogger {
  instructions : gmap Z Instruction;
  execution_start_index : Z;
  next_jump_location : option Z;
  value_stack : VS;
  mutations : list Mutation
}.

(** What a method can change: the logger object and the heap. *)
Record World := mkWorld {
  self : Logger;
  heap : gmap nat Obj
}.

(** ** The monad: state, and exceptions that keep the state reached *)
Definition M (A : Type) : Type := World → Result A * World.

Definition ret {A} (a : A) : M A := λ w, (Ok a, w).

Definition bind {A B} (m : M A) (k : A → M B) : M B :=
  λ w, match m w with
       | (Ok a, w') => k a w'
       | (Raise e, w') => (Raise e, w')
       end.

Definition lift {A} (r : Result A) : M A := λ w, (r, w).

Definition get_self : M Logger := λ w, (Ok (self w), w).

Definition get_heap : M (gmap nat Obj) := λ w, (Ok (heap w), w).

Definition put_self (lg : Logger) : M unit :=
  λ w, (Ok tt, mkWorld lg (heap w)).

Notation "'let*' x := m 'in' k" := (bind m (λ x, k))
  (at level 10, x name, m at level 100, k at level 200).
Notation "m >> k" := (bind m (λ _, k))
  (at level 100, k at level 200, right associativity).

Fixpoint for_each {A} (xs : list A) (body : A → M unit) : M unit :=
  match xs with
  | [] => ret tt
  | x :: xs' => body x >> for_each xs' body
  end.

(** [range(start, stop, 2)] *)
Definition range2 (start stop : Z) : list Z :=
  map (λ k : nat, start + 2 * Z.of_nat k)
      (seq 0 (Z.to_nat ((stop - start + 1) / 2))).

(** ** Field updates on [self] *)
Definition set_execution_start_index (i : Z) : M unit :=
  let* lg := get_self in
  put_self (mkLogger (instructions lg) i (next_jump_location lg)
                     (value_stack lg) (mutations lg)).

Definition set_next_jump_location (j : option Z) : M unit :=
  let* lg := get_self in
  put_self (mkLogger (instructions lg) (execution_start_index lg) j
                     (value_stack lg) (mutations lg)).

(** [self.mutations.append(m)] *)
Definition mutations_append (m : Mutation) : M unit :=
  let* lg := get_self in
  put_self (mkLogger (instructions lg) (execution_start_index lg)
                     (next_jump_location lg) (value_stack lg)
                     (mutations lg ++ [m])).

(** [self.instructions[i]] *)
Definition instructions_getitem (i : Z) : M Instruction :=
  let* lg := get_self in
  match instructions lg !! i with
  | Some instr => ret instr
  | None => lift (Raise KeyError)
  end.

(** [self.value_stack.handle_instruction(instr)] *)
Definition handle_instruction (instr : Instruction) : M unit :=
  λ w, let lg := self w in
       let '(r, s') := vs_handle_instruction instr (value_stack lg) in
       (r, mkWorld (mkLogger (instructions lg) (execution_start_index lg)
                             (next_jump_location lg) s' (mutations lg))
                   (heap w)).

(** The properties [_tos] and [_tos1]. *)
Definition _tos : M Value :=
  let* lg := get_self in lift (vs_tos (value_stack lg)).

Definition _tos1 : M Value :=
  let* lg := get_self in lift (vs_tos1 (value_stack lg)).

(** [deepcopy(x)], allocating the copy in the heap. *)
Definition deepcopy_m (v : Value) : M Value :=
  λ w, let '(r, h') := deepcopy (heap w) v in (r, mkWorld (self w) h').

(** ** [Logger.__init__] *)
Definition build_instructions (code : list Instruction)
  : gmap Z Instruction :=
  foldl (λ m instr, <[offset instr := instr]> m) ∅ code.

Definition Logger_init (frame : Frame) : Logger :=
  mkLogger (build_instructions (f_code frame))
           (f_lasti frame + 4)
           None
           vs_new
           [].

(** ** [create_logger] *)
Definition create_logger (frame : Frame) : Logger := Logger_init frame.

(** ** [_deepcopy_from_frame] *)
Definition _deepcopy_from_frame (frame : Frame) (name : Value) : M Value :=
  let* h := get_heap in
  let* in_locals := lift (dict_contains h (f_locals frame) name) in
  if in_locals : bool then
    let* v := lift (dict_getitem h (f_locals frame) name) in deepcopy_m v
  else
    let* in_globals := lift (dict_contains h (f_globals frame) name) in
    if in_globals : bool then
      let* v := lift (dict_getitem h (f_globals frame) name) in deepcopy_m v
    else
      let* v := lift (dict_getitem h (f_builtins frame) name) in deepcopy_m v.

(** ** [_log_changed_value] *)
Definition is_store_name (instr : Instruction) : bool :=
  bool_decide (opname instr ∈ ["STORE_NAME"; "STORE_FAST"]%string).

Definition is_store_attr (instr : Instruction) : bool :=
  bool_decide (opname instr = "STORE_ATTR"%string).

Definition _log_changed_value (frame : Frame) (instr : Instruction)
  : M unit :=
  (if is_store_name instr then
     let* v := _deepcopy_from_frame frame (argval instr) in
     let* s := _tos in
     mutations_append (mkMutation (argval instr) v s)
   else if is_store_attr instr then
     let* t := _tos in
     let* n := _tos in
     let* v := _deepcopy_from_frame frame n in
     let* s := _tos1 in
     mutations_append (mkMutation t v s)
   else ret tt) >>
  handle_instruction instr.

(** ** [_record_jump_location_if_exists] *)
Definition _record_jump_location_if_exists (instr : Instruction) : M unit :=
  if bool_decide (opcode instr ∈ hasjrel) then
    match arg instr with
    | Some a => set_next_jump_location (Some (offset instr + 2 + a))
    | None => lift (Raise TypeError)
    end
  else if bool_decide (opcode instr ∈ hasjabs) then
    set_next_jump_location (arg instr)
  else
    set_next_jump_location None.

(** ** [detect_chanages] *)
Definition detect_chanages (frame : Frame) : M unit :=
  let last_i := f_lasti frame in
  let* lg := get_self in
  if bool_decide (Some last_i = next_jump_location lg) then
    set_execution_start_index last_i >>
    let* instr := instructions_getitem last_i in
    _record_jump_location_if_exists instr
  else
    for_each (range2 (execution_start_index lg) last_i)
      (λ i, let* instr := instructions_getitem i in
            _log_changed_value frame instr) >>
    let* instr := instructions_getitem last_i in
    _record_jump_location_if_exists instr >>
    set_execution_start_index last_i.

End Logger.

(* ===================================================================== *)
(** * Vocabulary of the proofs *)
(* ===================================================================== *)

Section copy_vocabulary.

Implicit Types (h : gmap nat Obj) (m : gmap nat nat) (v : Value)
  (o : Obj) (P : gset nat) (D : nat → Prop).

(** The copy of a value under a memo: references are renamed. *)
Definition ren m v : Value :=
  match v with
  | VRef l => match m !! l with
              | Some l' => VRef l'
              | None => v
              end
  | _ => v
  end.

(** A value whose reference, if any, lies in [D]. *)
Definition val_ok D v : Prop :=
  match v with
  | VRef l => D l
  | _ => True
  end.

(** The region of a heap that holds every address. *)
Definition whole h : nat → Prop := λ l, l ∈ dom h.

(** The address of a function, class or other object that [deepcopy]
    returns as it is. *)
Definition shared_at h (l : nat) : Prop :=
  ∃ k ns vs, h !! l = Some (OShared k ns vs).

(** A set of addresses that the copier does not leave: the fields of the
    lists and instances in [D] are in [D]. *)
Definition region h D : Prop :=
  ∀ l o, D l → h !! l = Some o → copied_kind o = true →
         Forall (val_ok D) (obj_fields o).

(** A region the copier can copy: every address holds an object, none a
    module or the like. *)
Definition copyable_region h D : Prop :=
  ∀ l, D l →
    ∃ o, h !! l = Some o ∧
         match o with
         | OOpaque _ => False
         | OShared _ _ _ => True
         | _ => Forall (val_ok D) (obj_fields o)
         end.

(** A region of lists and instances only: nothing in it is returned
    uncopied. *)
Definition plain_region h D : Prop :=
  ∀ l, D l →
    ∃ o, h !! l = Some o ∧ copied_kind o = true ∧
         Forall (val_ok D) (obj_fields o).

(** A value the copier is done with: it is in the memo, or it is returned
    as it is. *)
Definition settled (h0 : gmap nat Obj) D m v : Prop :=
  match v with
  | VRef l => l ∈ dom m ∨ (shared_at h0 l ∧ D l)
  | _ => True
  end.

(** What a field of a copy can be: an atom, another copy, or an object
    returned as it is. *)
Definition fresh_or_shared (h0 : gmap nat Obj) D h v : Prop :=
  match v with
  | VRef k => (k ∈ dom h ∧ k ∉ dom h0) ∨ (shared_at h0 k ∧ D k)
  | _ => True
  end.

(** The invariant of the copier.  [h0] is the heap the copy started from,
    [D] a region of it the copier stays in, [P] the objects whose copy is
    still being filled. *)
Record cinv (h0 : gmap nat Obj) D P (st : gmap nat Obj * gmap nat nat)
  : Prop := {
  cinv_old : h0 ⊆ st.1;
  cinv_memo : ∀ l l', st.2 !! l = Some l' →
                (∃ o, h0 !! l = Some o ∧ copied_kind o = true) ∧
                l' ∈ dom st.1 ∧ l' ∉ dom h0;
  cinv_inj : ∀ l1 l2 l', st.2 !! l1 = Some l' → st.2 !! l2 = Some l' →
               l1 = l2;
  cinv_done : ∀ l l', st.2 !! l = Some l' → l ∉ P →
                ∃ o, h0 !! l = Some o ∧
                     st.1 !! l' =
                       Some (obj_with_fields o (ren st.2 <$> obj_fields o)) ∧
                     Forall (settled h0 D st.2) (obj_fields o);
  cinv_new : ∀ l', l' ∈ dom st.1 → l' ∉ dom h0 →
               ∃ o, st.1 !! l' = Some o ∧
                    Forall (fresh_or_shared h0 D st.1) (obj_fields o)
}.

(** The copier only adds to the memo and to the heap. *)
Definition grown (st st2 : gmap nat Obj * gmap nat nat) : Prop :=
  st.2 ⊆ st2.2 ∧ dom st.1 ⊆ dom st2.1.

(** What a run of the copier on [v] establishes. *)
Definition copied (h0 : gmap nat Obj) D P v
    (st : gmap nat Obj * gmap nat nat) (r : Result Value)
    (st2 : gmap nat Obj * gmap nat nat) : Prop :=
  grown st st2 ∧
  match r with
  | Ok v' => cinv h0 D P st2 ∧ v' = ren st2.2 v ∧ settled h0 D st2.2 v
  | Raise _ => ∃ P', cinv h0 D P' st2
  end.

(** [v'] in [h'] is a deep copy of [v] in [h]: the objects of [h] are
    untouched; on a closed heap [v'] reads as [v] did; and where [v]
    reaches lists and instances only, [v'] is made of objects allocated by
    the copy, and only those are read to see it. *)
Record is_deepcopy (h : gmap nat Obj) (v : Value)
    (h' : gmap nat Obj) (v' : Value) : Prop := {
  dc_old : h ⊆ h';
  dc_closed : heap_closed h → heap_closed h';
  dc_same : heap_closed h → ∀ n, read n h' v' = read n h v;
  dc_plain : ∀ D, plain_region h D → val_ok D v →
      val_in (dom h' ∖ dom h) v' ∧
      (∀ n, read n h' v' = read n h v) ∧
      ∀ h'' : gmap nat Obj,
        (∀ l, l ∈ dom h' → l ∉ dom h → h'' !! l = h' !! l) →
        ∀ n, read n h'' v' = read n h' v'
}.

End copy_vocabulary.

Section logger_vocabulary.

Context {VS : Type} `{!ValueStack VS}.
Context (hasjrel hasjabs : list Z).

Implicit Types (w : @World VS) (lg : @Logger VS) (frame : Frame)
  (instr : Instruction) (k v x t : Value) (n : string).

(** Name resolution as the specification words it: local scope, then
    global scope, then builtin scope; the first hit wins. *)
Definition resolve frame k : option Value :=
  match dict_lookup (f_locals frame) k with
  | Some x => Some x
  | None =>
      match dict_lookup (f_globals frame) k with
      | Some x => Some x
      | None => dict_lookup (f_builtins frame) k
      end
  end.

(** The logger with one more record at the end of its log. *)
Definition log_mutation (m : Mutation) lg : Logger :=
  mkLogger (instructions lg) (execution_start_index lg)
           (next_jump_location lg) (value_stack lg) (mutations lg ++ [m]).

(** The recorder half of [_log_changed_value]. *)
Definition record frame instr : @M VS unit :=
  if is_store_name instr then
    bind (_deepcopy_from_frame frame (argval instr)) (λ v,
    bind _tos (λ s,
    mutations_append (mkMutation (argval instr) v s)))
  else if is_store_attr instr then
    bind _tos (λ t,
    bind _tos (λ k,
    bind (_deepcopy_from_frame frame k) (λ v,
    bind _tos1 (λ s,
    mutations_append (mkMutation t v s)))))
  else ret tt.

(** The scan cursor and the table are not touched by the scan itself. *)
Definition same_cursor w w' : Prop :=
  instructions (self w') = instructions (self w) ∧
  execution_start_index (self w') = execution_start_index (self w) ∧
  next_jump_location (self w') = next_jump_location (self w).

(** The loop of [detect_chanages]. *)
Definition scan frame (offsets : list Z) : @M VS unit :=
  for_each offsets
    (λ i, bind (instructions_getitem i) (λ instr,
          _log_changed_value frame instr)).

(** Re-deriving the jump location from the instruction at [last_i]: the
    tail of both branches of [detect_chanages]. *)
Definition rederive_jump (last_i : Z) : @M VS unit :=
  bind (instructions_getitem last_i)
       (_record_jump_location_if_exists hasjrel hasjabs).

(** Every entry of the table sits at its own offset. *)
Definition table_wf (tbl : gmap Z Instruction) : Prop :=
  map_Forall (λ o instr, offset instr = o) tbl.

(** A name none of the three scopes holds. *)
Definition absent frame n : Prop :=
  f_locals frame !! n = None ∧ f_globals frame !! n = None ∧
  f_builtins frame !! n = None.

(** A store whose target name cannot be resolved: the operand of a
    [STORE_NAME] or [STORE_FAST], or the name on top of the stack at a
    [STORE_ATTR]. *)
Definition unresolved_store frame instr (s : VS) : Prop :=
  ∃ n, absent frame n ∧
    ((is_store_name instr = true ∧ argval instr = VStr n) ∨
     (is_store_name instr = false ∧ is_store_attr instr = true ∧
      vs_tos s = Ok (VStr n))).

(** The store-class instructions: the ones the recorder makes a record
    for. *)
Definition is_store instr : bool := is_store_name instr || is_store_attr instr.


(** The loggers a run can meet: the one [create_logger] builds for the
    frame [frame0], then any number of observations, of any frame and however
    they end, with the traced program changing the heap in between. *)
Inductive reachable (frame0 : Frame) : @World VS → Prop :=
| reachable_init (h : gmap nat Obj) :
    reachable frame0 (mkWorld (create_logger frame0) h)
| reachable_observe frame w :
    reachable frame0 w →
    reachable frame0 (detect_chanages hasjrel hasjabs frame w).2
| reachable_program w (h : gmap nat Obj) :
    reachable frame0 w → reachable frame0 (mkWorld (self w) h).











(** Writes to the heap, in order: each replaces the object at an address
    (an in-place mutation of a live object) or places one at a new address
    (an allocation). *)
Definition store_all (writes : list (nat * Obj)) (h : gmap nat Obj)
  : gmap nat Obj :=
  foldl (λ h lo, <[lo.1 := lo.2]> h) h writes.

(** The world with the scan cursor moved to [i]. *)
Definition moved_to (i : Z) w : World :=
  mkWorld (mkLogger (instructions (self w)) i (next_jump_location (self w))
                    (value_stack (self w)) (mutations (self w)))
          (heap w).

(** The world with the table and the cursor replaced: what the scan of one
    instruction neither reads nor writes. *)
Definition relocated (tbl : gmap Z Instruction) (i : Z) (j : option Z) w
  : World :=
  mkWorld (mkLogger tbl i j (value_stack (self w)) (mutations (self w)))
          (heap w).

(** The same frame with the instruction pointer at [i]. *)
Definition at_offset (i : Z) frame : Frame :=
  mkFrame i (f_code frame) (f_locals frame) (f_globals frame)
          (f_builtins frame).

End logger_vocabulary.

(* ===================================================================== *)
(** * Worked observations: the inputs *)
(* ===================================================================== *)

(** Modelled from the spec: a stack-effect table for [list_stack], covering
    the instructions of the runs below.  The spec leaves the table to the
    instruction set; these entries are the documented effects of the CPython
    instructions: loads push their operand, [STORE_NAME], [STORE_FAST] and
    [POP_TOP] pop one entry, [STORE_ATTR] pops two, and the rest leave the
    stack as it is. *)
Definition example_effect (instr : Instruction) (s : list Value)
  : Result (list Value) :=
  if bool_decide (opname instr ∈ ["LOAD_NAME"; "LOAD_FAST"; "LOAD_CONST"]%string)
  then Ok (argval instr :: s)
  else if bool_decide (opname instr ∈ ["STORE_NAME"; "STORE_FAST"; "POP_TOP"]%string)
  then match s with
       | _ :: s' => Ok s'
       | [] => Raise IndexError
       end
  else if bool_decide (opname instr = "STORE_ATTR"%string)
  then match s with
       | _ :: _ :: s' => Ok s'
       | _ => Raise IndexError
       end
  else Ok s.

#[local] Instance example_stack : ValueStack (list Value) :=
  list_stack example_effect.

(** [dis.hasjrel] and [dis.hasjabs] of CPython 3.8. *)
Definition hasjrel38 : list Z := [93; 110; 122; 143; 154; 162].
Definition hasjabs38 : list Z := [111; 112; 113; 114; 115].

(** The scenario of the specification: two stores, then an absolute jump
    to offset 8. *)
Definition scenario_code : list Instruction := [
  mkInstruction "STORE_NAME" 90 (Some 0) (VStr "x") 0;
  mkInstruction "STORE_NAME" 90 (Some 1) (VStr "y") 2;
  mkInstruction "JUMP_ABSOLUTE" 113 (Some 8) (VInt 8) 4;
  mkInstruction "NOP" 9 None VNone 6;
  mkInstruction "JUMP_FORWARD" 110 (Some 4) (VInt 14) 8
].

Definition scenario_frame (last_i : Z) : Frame :=
  mkFrame last_i scenario_code {[ "x" := VInt 1; "y" := VInt 2 ]}%string ∅ ∅.

Definition scenario_world : @World (list Value) :=
  mkWorld (mkLogger (build_instructions scenario_code) 0 None
                    [VInt 1; VInt 2] [])
          ∅.

(** The same code when [x] is bound nowhere. *)
Definition unbound_frame : Frame :=
  mkFrame 4 scenario_code {[ "y" := VInt 2 ]}%string ∅ ∅.

(** An attribute store [obj.value = 7]: the object's name on top of the
    stack, the assigned value below it. *)
Definition attr_instr : Instruction :=
  mkInstruction "STORE_ATTR" 95 (Some 0) (VStr "value") 0.

Definition attr_frame : Frame :=
  mkFrame 2 [attr_instr] {[ "obj" := VRef 0%nat ]}%string ∅ ∅.

Definition attr_world : @World (list Value) :=
  mkWorld (mkLogger (build_instructions [attr_instr]) 0 None
                    [VStr "obj"; VInt 7] [])
          {[ 0%nat := OInst "Box" true ["value"%string] [VInt 7] ]}.

(** The same store reached with an object on top of the stack whose class
    defines [__eq__] and no [__hash__]. *)
Definition unhashable_world : @World (list Value) :=
  mkWorld (mkLogger (build_instructions [attr_instr]) 0 None
                    [VRef 0%nat; VInt 7] [])
          {[ 0%nat := OInst "Point" false ["x"%string] [VInt 1] ]}.

(** A store of a list that is appended to afterwards. *)
Definition list_instr : Instruction :=
  mkInstruction "STORE_NAME" 90 (Some 0) (VStr "xs") 0.

Definition list_frame : Frame :=
  mkFrame 2 [list_instr] {[ "xs" := VRef 0%nat ]}%string ∅ ∅.

Definition list_world : @World (list Value) :=
  mkWorld (mkLogger (build_instructions [list_instr]) 0 None [VRef 0%nat] [])
          {[ 0%nat := OList [VInt 1; VInt 2] ]}.

Definition observe := @detect_chanages (list Value) example_stack hasjrel38 hasjabs38.

Definition log_value := @_log_changed_value (list Value) example_stack.

(** The logger after the first observation of the scenario, at offset 4. *)
Definition scenario_world_at_4 : @World (list Value) :=
  (observe (scenario_frame 4) scenario_world).2.

(** The scenario's logger with the cursor on an odd offset, which the
    table does not hold. *)
Definition misaligned_world : @World (list Value) :=
  mkWorld (mkLogger (build_instructions scenario_code) 1 None
                    [VInt 1; VInt 2] [])
          ∅.

(** The scenario's logger with nothing on the shadow stack. *)
Definition empty_stack_world : @World (list Value) :=
  mkWorld (mkLogger (build_instructions scenario_code) 0 None [] []) ∅.

(** A simulator that supports no instruction. *)
Definition refusing_stack : ValueStack (list Value) :=
  list_stack (λ _ _, Raise (StackError "unsupported")).

(** The frame the scenario's logger is created for: the pointer is on the
    call of the tracer, four bytes before the first store. *)
Definition creating_frame : Frame := scenario_frame (-4).

(** [xs.append(3)] on the live list, after the record was made. *)
Definition append_3 : list (nat * Obj) :=
  [(0%nat, OList [VInt 1; VInt 2; VInt 3])].









(* ===================================================================== *)
(** * Facts about [deepcopy] *)
(* ===================================================================== *)

Section deepcopy_facts.

Implicit Types (h : gmap nat Obj) (m : gmap nat nat) (v : Value)
  (o : Obj) (P : gset nat) (D : nat → Prop).

Lemma obj_fields_with o vs :
  copied_kind o = true → obj_fields (obj_with_fields o vs) = vs.
Proof. by destruct o. Qed.

Lemma tree_of_obj_with o vs ts :
  tree_of_obj (obj_with_fields o vs) ts = tree_of_obj o ts.
Proof. by destruct o. Qed.

Lemma val_in_mono (D1 D2 : gset nat) v : D1 ⊆ D2 → val_in D1 v → val_in D2 v.
Proof. destruct v; simpl; set_solver. Qed.

Lemma shared_at_dom h l : shared_at h l → l ∈ dom h.
Proof. intros (k&ns&vs&Hl). by apply elem_of_dom. Qed.

Lemma shared_at_not_copied h l o :
  shared_at h l → h !! l = Some o → copied_kind o = true → False.
Proof. intros (k&ns&vs&Hl) Ho. rewrite Hl in Ho. by injection Ho as <-. Qed.

Lemma plain_region_region h D : plain_region h D → region h D.
Proof.
  intros Hp l o Hl Ho _. destruct (Hp l Hl) as (o'&Ho'&_&Hfs). congruence.
Qed.

Lemma copyable_region_region h D : copyable_region h D → region h D.
Proof.
  intros Hc l o Hl Ho Hk. destruct (Hc l Hl) as (o'&Ho'&Hfs).
  assert (o' = o) as -> by congruence. by destruct o.
Qed.

Lemma plain_region_no_shared h D l : plain_region h D → D l → ¬ shared_at h l.
Proof.
  intros Hp Hl Hsh. destruct (Hp l Hl) as (o&Ho&Hk&_).
  by eapply shared_at_not_copied.
Qed.

Lemma region_all h : region h (λ _, True).
Proof.
  intros l o _ _ _. apply Forall_forall. intros v _. by destruct v.
Qed.

(** Renaming is stable once a value is settled. *)
Lemma ren_settled_mono (h0 : gmap nat Obj) D m1 m2 v :
  m1 ⊆ m2 →
  (∀ l l', m2 !! l = Some l' → ∃ o, h0 !! l = Some o ∧ copied_kind o = true) →
  settled h0 D m1 v → ren m2 v = ren m1 v.
Proof.
  intros Hsub Hkind Hv. destruct v as [| | |l]; try done. simpl in *.
  destruct Hv as [[l' Hl']%elem_of_dom|[Hsh _]].
  - by rewrite Hl', (lookup_weaken _ _ _ _ Hl' Hsub).
  - destruct (m2 !! l) as [l2|] eqn:Hl2.
    + destruct (Hkind _ _ Hl2) as (o&Ho&Hk).
      by destruct (shared_at_not_copied _ _ _ Hsh Ho Hk).
    + by rewrite (lookup_weaken_None _ _ _ Hl2 Hsub).
Qed.

Lemma settled_mono (h0 : gmap nat Obj) D m1 m2 v :
  m1 ⊆ m2 → settled h0 D m1 v → settled h0 D m2 v.
Proof.
  intros Hsub. destruct v as [| | |l]; try done. simpl.
  intros [Hin|Hsh]; [left|by right]. by apply (subseteq_dom _ _ Hsub).
Qed.

Lemma fresh_or_shared_mono (h0 : gmap nat Obj) D h1 h2 v :
  dom h1 ⊆ dom h2 → fresh_or_shared h0 D h1 v → fresh_or_shared h0 D h2 v.
Proof.
  intros Hsub. destruct v as [| | |l]; try done. simpl.
  intros [[Hin Hnew]|Hsh]; [left|by right]. split; [by apply Hsub|done].
Qed.

Lemma cinv_init (h0 : gmap nat Obj) D : cinv h0 D ∅ (h0, ∅).
Proof. split; simpl; try done. Qed.

Lemma cinv_memo_kind (h0 : gmap nat Obj) D P st :
  cinv h0 D P st →
  ∀ l l', st.2 !! l = Some l' → ∃ o, h0 !! l = Some o ∧ copied_kind o = true.
Proof. intros Hinv l l' Hl. by destruct (cinv_memo _ _ _ _ Hinv _ _ Hl). Qed.

Lemma cinv_weaken (h0 : gmap nat Obj) D P P' st :
  P ⊆ P' → cinv h0 D P st → cinv h0 D P' st.
Proof.
  intros Hsub [Hold Hmemo Hinj Hdone Hnew]. split; try done.
  intros l l' Hl HlP. apply Hdone; [done|set_solver].
Qed.

Lemma cinv_alloc (h0 : gmap nat Obj) D P h m l o :
  cinv h0 D P (h, m) → m !! l = None → h0 !! l = Some o →
  copied_kind o = true →
  cinv h0 D (P ∪ {[l]})
       (<[fresh (dom h) := obj_with_fields o []]> h, <[l := fresh (dom h)]> m).
Proof.
  intros [Hold Hmemo Hinj Hdone Hnew] Hm Ho Hkind. simpl in *.
  pose proof (is_fresh (dom h)) as Hfresh.
  remember (fresh (dom h)) as l' eqn:El'. clear El'.
  assert (Hl'0 : l' ∉ dom h0).
  { intros Hin. apply Hfresh. by apply (subseteq_dom _ _ Hold). }
  assert (Himg : ∀ k k', m !! k = Some k' → k' ≠ l').
  { intros k k' Hk ->. by destruct (Hmemo _ _ Hk) as (?&?&?). }
  assert (Hkinds : ∀ k k', <[l:=l']> m !! k = Some k' →
                     ∃ o, h0 !! k = Some o ∧ copied_kind o = true).
  { intros k k' [[<- <-]|[Hne Hk]]%lookup_insert_Some; [by eauto|].
    by destruct (Hmemo _ _ Hk) as (?&?&?). }
  assert (m ⊆ <[l:=l']> m) as Hsub by by apply insert_subseteq.
  split; simpl.
  - apply insert_subseteq_r; [by apply not_elem_of_dom|done].
  - intros k k' Hk. split; [by eauto|].
    apply lookup_insert_Some in Hk as [[<- <-]|[Hne Hk]].
    + split; [set_solver|done].
    + destruct (Hmemo _ _ Hk) as (?&?&?). set_solver.
  - intros k1 k2 k' [[<- <-]|[Hne1 Hk1]]%lookup_insert_Some
                    [[<- Heq]|[Hne2 Hk2]]%lookup_insert_Some; try done.
    + by destruct (Himg _ _ Hk2).
    + subst k'. by destruct (Himg _ _ Hk1).
    + eauto.
  - intros k k' [[<- <-]|[Hne Hk]]%lookup_insert_Some HkP; [set_solver|].
    destruct (Hdone k k' Hk) as (o'&Ho'&Hk'&Hfs); [set_solver|].
    exists o'. split; [done|]. split.
    + rewrite lookup_insert_ne by (intros <-; by destruct (Himg _ _ Hk)).
      rewrite Hk'. do 2 f_equal. apply Forall_fmap_ext_1.
      eapply Forall_impl; [done|]. intros v Hv.
      symmetry. by apply (ren_settled_mono h0 D).
    + eapply Forall_impl; [done|]. intros v. by apply settled_mono.
  - intros k Hk Hk0. destruct (decide (k = l')) as [->|Hne].
    + rewrite lookup_insert_eq. eexists. split; [done|].
      by rewrite obj_fields_with.
    + rewrite lookup_insert_ne by done.
      destruct (Hnew k) as (o'&Ho'&Hfs); [set_solver|done|].
      exists o'. split; [done|].
      eapply Forall_impl; [done|]. intros v.
      apply fresh_or_shared_mono. set_solver.
Qed.

Lemma ren_settled (h0 : gmap nat Obj) D P (st : gmap nat Obj * gmap nat nat) v :
  cinv h0 D P st → settled h0 D st.2 v →
  fresh_or_shared h0 D st.1 (ren st.2 v).
Proof.
  intros Hinv Hv. destruct v as [| | |l]; try done. simpl in *.
  destruct (st.2 !! l) as [l'|] eqn:Hl'; simpl.
  - destruct (cinv_memo _ _ _ _ Hinv _ _ Hl') as (?&?&?). by left.
  - destruct Hv as [Hin|Hsh]; [|by right].
    by apply not_elem_of_dom in Hl'.
Qed.

Lemma cinv_fill (h0 : gmap nat Obj) D P h m l l' o :
  cinv h0 D (P ∪ {[l]}) (h, m) → m !! l = Some l' → h0 !! l = Some o →
  Forall (settled h0 D m) (obj_fields o) →
  cinv h0 D P (<[l' := obj_with_fields o (ren m <$> obj_fields o)]> h, m).
Proof.
  intros Hinv Hl Ho Hfs.
  pose proof Hinv as [Hold Hmemo Hinj Hdone Hnew]. simpl in *.
  destruct (Hmemo _ _ Hl) as ((o0&Ho0&Hkind)&Hl'h&Hl'0).
  assert (o0 = o) as -> by congruence.
  split; simpl.
  - apply insert_subseteq_r; [by apply not_elem_of_dom|done].
  - intros k k' Hk. destruct (Hmemo _ _ Hk) as (?&?&?).
    split; [done|]. set_solver.
  - done.
  - intros k k' Hk HkP. destruct (decide (k = l)) as [->|Hne].
    + assert (k' = l') as -> by congruence.
      exists o. by rewrite lookup_insert_eq.
    + destruct (Hdone k k' Hk) as (o'&Ho'&Hk'&Hfs'); [set_solver|].
      exists o'. split; [done|]. split; [|done].
      rewrite lookup_insert_ne; [done|]. intros <-. apply Hne. eauto.
  - intros k Hk Hk0. destruct (decide (k = l')) as [->|Hne].
    + rewrite lookup_insert_eq. eexists. split; [done|].
      rewrite obj_fields_with by done. apply Forall_fmap.
      eapply Forall_impl; [done|]. intros v Hv. simpl.
      eapply fresh_or_shared_mono;
        [|by apply (ren_settled h0 D _ (h, m) v Hinv)].
      simpl. set_solver.
    + rewrite lookup_insert_ne by done.
      destruct (Hnew k) as (o'&Ho'&Hfs'); [set_solver|done|].
      exists o'. split; [done|].
      eapply Forall_impl; [done|]. intros v.
      apply fresh_or_shared_mono. set_solver.
Qed.

Lemma grown_refl st : grown st st.
Proof. by split. Qed.

Lemma grown_trans st1 st2 st3 : grown st1 st2 → grown st2 st3 → grown st1 st3.
Proof. intros [? ?] [? ?]. split; by etrans. Qed.

Lemma copy_list_copied (h0 : gmap nat Obj) D P cp (vs : list Value) :
  (∀ v st r st2, v ∈ vs → cp v st = (r, st2) → cinv h0 D P st →
     copied h0 D P v st r st2) →
  ∀ st r st2, copy_list cp vs st = (r, st2) → cinv h0 D P st →
    grown st st2 ∧
    match r with
    | Ok vs' => cinv h0 D P st2 ∧ vs' = ren st2.2 <$> vs ∧
                Forall (settled h0 D st2.2) vs
    | Raise _ => ∃ P', cinv h0 D P' st2
    end.
Proof.
  induction vs as [|x xs IH]; intros Hcp st r st2 Hrun Hinv; simpl in Hrun.
  - injection Hrun as <- <-. split; [apply grown_refl|by split].
  - destruct (cp x st) as [[x'|e] st1] eqn:Hx.
    2:{ injection Hrun as <- <-.
        by destruct (Hcp x st _ _ ltac:(by left) Hx Hinv). }
    destruct (Hcp x st _ _ ltac:(by left) Hx Hinv) as (Hg1&Hinv1&->&Hvx).
    destruct (copy_list cp xs st1) as [[xs'|e] st1'] eqn:Hxs.
    2:{ injection Hrun as <- <-.
        destruct (IH (λ v s r s2 Hv, Hcp v s r s2 (list_elem_of_further _ _ _ Hv))
                     st1 _ _ Hxs Hinv1) as (Hg2&HP).
        split; [by eapply grown_trans|done]. }
    injection Hrun as <- <-.
    destruct (IH (λ v s r s2 Hv, Hcp v s r s2 (list_elem_of_further _ _ _ Hv))
                 st1 _ _ Hxs Hinv1) as (Hg2&Hinv2&->&Hvxs).
    split; [by eapply grown_trans|]. split; [done|]. split.
    + simpl. f_equal. symmetry.
      eapply ren_settled_mono; [apply Hg2|by eapply cinv_memo_kind|done].
    + constructor; [|done]. eapply settled_mono; [apply Hg2|done].
Qed.

(** The cases of [copy_val] at a reference. *)
Lemma copy_val_memo (h0 : gmap nat Obj) (fuel : nat) (l l' : nat)
    (st : gmap nat Obj * gmap nat nat) :
  st.2 !! l = Some l' → copy_val h0 fuel (VRef l) st = (Ok (VRef l'), st).
Proof. intros Hl. destruct fuel; simpl; by rewrite Hl. Qed.

Lemma copy_val_dangling (h0 : gmap nat Obj) (fuel : nat) (l : nat)
    (st : gmap nat Obj * gmap nat nat) :
  st.2 !! l = None → h0 !! l = None →
  copy_val h0 fuel (VRef l) st = (Raise DanglingRef, st).
Proof. intros Hl Ho. destruct fuel; simpl; by rewrite Hl, Ho. Qed.

Lemma copy_val_shared (h0 : gmap nat Obj) (fuel : nat) (l : nat)
    (st : gmap nat Obj * gmap nat nat) k ns vs :
  st.2 !! l = None → h0 !! l = Some (OShared k ns vs) →
  copy_val h0 fuel (VRef l) st = (Ok (VRef l), st).
Proof. intros Hl Ho. destruct fuel; simpl; by rewrite Hl, Ho. Qed.

Lemma copy_val_opaque (h0 : gmap nat Obj) (fuel : nat) (l : nat)
    (st : gmap nat Obj * gmap nat nat) k :
  st.2 !! l = None → h0 !! l = Some (OOpaque k) →
  copy_val h0 fuel (VRef l) st = (Raise TypeError, st).
Proof. intros Hl Ho. destruct fuel; simpl; by rewrite Hl, Ho. Qed.

Lemma copy_val_copying (h0 : gmap nat Obj) (fuel : nat) (l : nat)
    (st : gmap nat Obj * gmap nat nat) o :
  st.2 !! l = None → h0 !! l = Some o → copied_kind o = true →
  copy_val h0 fuel (VRef l) st =
    match fuel with
    | O => (Raise OutOfFuel, st)
    | S f =>
        match copy_list (copy_val h0 f) (obj_fields o)
                (<[fresh (dom st.1) := obj_with_fields o []]> st.1,
                 <[l := fresh (dom st.1)]> st.2) with
        | (Raise e, st2) => (Raise e, st2)
        | (Ok vs', st2) =>
            (Ok (VRef (fresh (dom st.1))),
             (<[fresh (dom st.1) := obj_with_fields o vs']> st2.1, st2.2))
        end
    end.
Proof. intros Hl Ho Hk. destruct fuel; simpl; rewrite Hl, Ho; by destruct o. Qed.

Lemma copy_val_copied (h0 : gmap nat Obj) D :
  region h0 D →
  ∀ fuel v st r st2 P, copy_val h0 fuel v st = (r, st2) → val_ok D v →
    cinv h0 D P st → copied h0 D P v st r st2.
Proof.
  intros Hreg fuel.
  induction fuel as [|f IH]; intros v [h m] r st2 P Hrun Hv Hinv.
  all: destruct v as [| | |l];
    try (injection Hrun as <- <-; split; [apply grown_refl|by split]).
  all: destruct (m !! l) as [l'|] eqn:Hl.
  all: try (rewrite (copy_val_memo _ _ l l') in Hrun by done;
            injection Hrun as <- <-; split; [apply grown_refl|];
            simpl; rewrite Hl; split; [done|]; split; [done|];
            left; by apply elem_of_dom).
  all: destruct (h0 !! l) as [o|] eqn:Ho.
  all: try (rewrite copy_val_dangling in Hrun by done;
            injection Hrun as <- <-; split; [apply grown_refl|by eauto]).
  all: destruct (copied_kind o) eqn:Hkind.
  all: try (destruct o as [| |k ns vs|k]; try done;
            [rewrite (copy_val_shared _ _ _ _ k ns vs) in Hrun by done;
             injection Hrun as <- <-; split; [apply grown_refl|];
             simpl; rewrite Hl; split; [done|]; split; [done|];
             right; split; [by exists k, ns, vs|done]
            |rewrite (copy_val_opaque _ _ _ _ k) in Hrun by done;
             injection Hrun as <- <-; split; [apply grown_refl|by eauto]]).
  all: rewrite (copy_val_copying _ _ _ _ o) in Hrun by done.
  - injection Hrun as <- <-. split; [apply grown_refl|by eauto].
  - simpl in Hrun.
    pose proof (cinv_alloc _ _ _ _ _ _ _ Hinv Hl Ho Hkind) as Hinv1.
    remember (fresh (dom h)) as l' eqn:El'.
    destruct (copy_list (copy_val h0 f) (obj_fields o)
                (<[l':=obj_with_fields o []]> h, <[l:=l']> m))
      as [rl [h2 m2]] eqn:Hvs.
    assert (Forall (val_ok D) (obj_fields o)) as Hfields by by eapply Hreg.
    destruct (copy_list_copied h0 D (P ∪ {[l]}) _ _
                (λ v s r s2 Hvin Hr, IH v s r s2 _ Hr
                   (proj1 (Forall_forall _ _) Hfields v Hvin))
                _ _ _ Hvs Hinv1) as ([Hm2 Hd2]&Hres).
    simpl in *.
    assert (m2 !! l = Some l') as Hl2.
    { apply (lookup_weaken (<[l:=l']> m) m2 l l');
        [apply lookup_insert_eq|done]. }
    assert (grown (h, m) (h2, m2)) as Hg.
    { split; simpl.
      - etrans; [|done]. by apply insert_subseteq.
      - etrans; [|done]. rewrite dom_insert_L. set_solver. }
    destruct rl as [vs'|e]; injection Hrun as <- <-.
    + destruct Hres as (Hinv2&->&Hfs).
      split.
      { destruct Hg as [? Hd]. split; simpl; [done|].
        rewrite dom_insert_L. set_solver. }
      split; [by apply (cinv_fill h0 D P h2 m2 l l' o)|]. simpl.
      rewrite Hl2. split; [done|]. left. by apply elem_of_dom.
    + by split.
Qed.

Lemma copy_list_total (h0 : gmap nat Obj) D P (f : nat) cp (vs : list Value) :
  (∀ v st, v ∈ vs → cinv h0 D P st → size (dom h0 ∖ dom st.2) ≤ f →
     ∃ v' st2, cp v st = (Ok v', st2) ∧ copied h0 D P v st (Ok v') st2)%nat →
  ∀ st, cinv h0 D P st → (size (dom h0 ∖ dom st.2) ≤ f)%nat →
    ∃ vs' st2, copy_list cp vs st = (Ok vs', st2).
Proof.
  induction vs as [|x xs IH]; intros Hcp st Hinv Hsz; simpl; [by eauto|].
  destruct (Hcp x st) as (x'&st1&->&[Hm1 _]&Hinv1&_); [by left|done|done|].
  destruct (IH (λ v s Hv, Hcp v s (list_elem_of_further _ _ _ Hv)) st1)
    as (xs'&st2&->); [done| |by eauto].
  etrans; [|done]. apply subseteq_size.
  apply subseteq_dom in Hm1. set_solver.
Qed.

Lemma copy_val_total (h0 : gmap nat Obj) D :
  copyable_region h0 D →
  ∀ (fuel : nat) v st P, val_ok D v → cinv h0 D P st →
    (size (dom h0 ∖ dom st.2) ≤ fuel)%nat →
    ∃ v' st2, copy_val h0 fuel v st = (Ok v', st2).
Proof.
  intros Hcopy.
  pose proof (copyable_region_region _ _ Hcopy) as Hreg.
  induction fuel as [|f IH]; intros v [h m] P Hv Hinv Hsz.
  all: destruct v as [| | |l]; [by eauto ..|].
  all: destruct (m !! l) as [l'|] eqn:Hl;
    [rewrite (copy_val_memo _ _ l l') by done; by eauto|].
  all: destruct (Hcopy l Hv) as (o&Ho&Hfs).
  all: destruct (copied_kind o) eqn:Hkind;
    [|destruct o as [| |k ns vs|k]; try done;
      rewrite (copy_val_shared _ _ _ _ k ns vs) by done; by eauto].
  all: rewrite (copy_val_copying _ _ _ _ o) by done.
  all: assert (l ∈ dom h0 ∖ dom m) as Hin
    by (apply elem_of_difference; split;
        [by apply elem_of_dom|by apply not_elem_of_dom]).
  - simpl in Hsz.
    assert (dom h0 ∖ dom m ≡ ∅) as Hemp by (apply size_empty_iff; lia).
    set_solver.
  - simpl in *.
    pose proof (cinv_alloc _ _ _ _ _ _ _ Hinv Hl Ho Hkind) as Hinv1.
    destruct (copy_list_total h0 D (P ∪ {[l]}) f (copy_val h0 f) (obj_fields o))
      with (st := (<[fresh (dom h) := obj_with_fields o []]> h,
                   <[l := fresh (dom h)]> m))
      as (vs'&st2&->); [|done| |by eauto].
    + intros v st Hvin Hinvst Hszst.
      assert (val_ok D v) as Hvok.
      { assert (Forall (val_ok D) (obj_fields o)) as Hall by by destruct o.
        rewrite Forall_forall in Hall. by apply Hall. }
      destruct (IH v st (P ∪ {[l]})) as (v'&st2&Hrun); [done..|].
      exists v', st2. split; [done|].
      by apply (copy_val_copied _ _ Hreg _ _ _ _ _ _ Hrun).
    + simpl. rewrite dom_insert_L.
      assert (dom h0 ∖ ({[l]} ∪ dom m) ⊂ dom h0 ∖ dom m) as Hlt
        by set_solver.
      apply subset_size in Hlt. lia.
Qed.

(** ** What [deepcopy] returns *)

Lemma read_mono (h h' : gmap nat Obj) :
  h ⊆ h' → heap_closed h →
  ∀ (d : nat) v, val_in (dom h) v → read d h' v = read d h v.
Proof.
  intros Hsub Hclosed. induction d as [|d IH]; intros [| | |l] Hv; try done.
  simpl in *. apply elem_of_dom in Hv as [o Ho].
  rewrite Ho, (lookup_weaken _ _ _ _ Ho Hsub). f_equal.
  apply Forall_fmap_ext_1. eapply Forall_impl; [apply (Hclosed l o Ho)|].
  intros v. apply IH.
Qed.

Lemma read_ren (h0 : gmap nat Obj) D (st : gmap nat Obj * gmap nat nat) :
  cinv h0 D ∅ st →
  (∀ l, shared_at h0 l → D l →
        ∀ d : nat, read d st.1 (VRef l) = read d h0 (VRef l)) →
  ∀ (d : nat) v, settled h0 D st.2 v →
    read d st.1 (ren st.2 v) = read d h0 v.
Proof.
  intros Hinv Hshared. induction d as [|d IH]; intros [| | |l] Hv; try done.
  - simpl. by destruct (st.2 !! l).
  - simpl in Hv. destruct (st.2 !! l) as [l'|] eqn:Hl'.
    + simpl. rewrite Hl'. simpl.
      destruct (cinv_done _ _ _ _ Hinv l l' Hl') as (o&->&->&Hfs);
        [set_solver|].
      destruct (cinv_memo _ _ _ _ Hinv l l' Hl') as ((o'&Ho'&Hkind)&_).
      rewrite tree_of_obj_with. f_equal.
      destruct o; try done; simpl;
        rewrite <-list_fmap_compose; apply Forall_fmap_ext_1;
        (eapply Forall_impl; [done|]); intros v Hvin; by apply IH.
    + destruct Hv as [Hin|[Hsh HD]]; [by apply not_elem_of_dom in Hl'|].
      simpl ren. rewrite Hl'. by apply Hshared.
Qed.

Lemma read_new (h0 : gmap nat Obj) D P (st : gmap nat Obj * gmap nat nat)
    (h'' : gmap nat Obj) :
  cinv h0 D P st →
  (∀ l, D l → ¬ shared_at h0 l) →
  (∀ l, l ∈ dom st.1 → l ∉ dom h0 → h'' !! l = st.1 !! l) →
  ∀ (d : nat) v, val_in (dom st.1 ∖ dom h0) v → read d h'' v = read d st.1 v.
Proof.
  intros Hinv Hplain Hsame.
  induction d as [|d IH]; intros [| | |l] Hv; try done.
  simpl in *. apply elem_of_difference in Hv as [Hl Hl0].
  rewrite (Hsame l Hl Hl0).
  destruct (cinv_new _ _ _ _ Hinv l Hl Hl0) as (o&->&Hfs).
  f_equal. apply Forall_fmap_ext_1.
  eapply Forall_impl; [done|]. intros [| | |k] Hk; [by destruct d ..|].
  apply IH. simpl in *. destruct Hk as [[? ?]|[Hsh HD]]; [set_solver|].
  by destruct (Hplain k HD).
Qed.

(** The run of the copier inside [deepcopy]. *)
Lemma deepcopy_Ok h v v' h' :
  deepcopy h v = (Ok v', h') →
  ∃ st, copy_val h (size h) v (h, ∅) = (Ok v', st) ∧ h' = st.1.
Proof.
  unfold deepcopy. destruct (copy_val h (size h) v (h, ∅)) as [[v1|e] st];
    intros [= <- <-]. by exists st.
Qed.

Lemma deepcopy_Raise h v e h' : deepcopy h v = (Raise e, h') → h' = h.
Proof.
  unfold deepcopy. destruct (copy_val h (size h) v (h, ∅)) as [[v1|e1] st];
    by intros [= <- <-].
Qed.

Lemma deepcopy_cinv h v v' h' D :
  region h D → val_ok D v → deepcopy h v = (Ok v', h') →
  ∃ st, copied h D ∅ v (h, ∅) (Ok v') st ∧ h' = st.1.
Proof.
  intros Hreg Hv Hdc. destruct (deepcopy_Ok _ _ _ _ Hdc) as (st&Hrun&Hst).
  exists st. split; [|done].
  by apply (copy_val_copied _ _ Hreg _ _ _ _ _ _ Hrun Hv (cinv_init h D)).
Qed.

Lemma val_ok_all v : val_ok (λ _, True) v.
Proof. by destruct v. Qed.

(** [deepcopy] never writes to an object that was there, however it
    ends. *)
Lemma deepcopy_old h v : h ⊆ (deepcopy h v).2.
Proof.
  destruct (deepcopy h v) as [[v'|e] h'] eqn:Hdc; simpl.
  - destruct (deepcopy_cinv h v v' h' (λ _, True) (region_all h)
                (val_ok_all v) Hdc) as (st&(_&Hinv&_)&->).
    apply (cinv_old _ _ _ _ Hinv).
  - by apply deepcopy_Raise in Hdc as ->.
Qed.

Lemma cinv_closed (h0 : gmap nat Obj) D P st :
  cinv h0 D P st → heap_closed h0 → heap_closed st.1.
Proof.
  intros Hinv Hclosed l o Hl.
  pose proof (cinv_old _ _ _ _ Hinv) as Hold.
  destruct (decide (l ∈ dom h0)) as [Hin|Hnin].
  - apply elem_of_dom in Hin as [o0 Ho0].
    pose proof (lookup_weaken _ _ _ _ Ho0 Hold) as Ho0'.
    assert (o = o0) as -> by congruence.
    eapply Forall_impl; [by apply (Hclosed l o0)|].
    intros x. apply val_in_mono. by apply subseteq_dom.
  - destruct (cinv_new _ _ _ _ Hinv l) as (o'&Ho'&Hfs);
      [by apply elem_of_dom|done|].
    assert (o = o') as -> by congruence.
    eapply Forall_impl; [done|]. intros [| | |k]; try done. simpl.
    intros [[? ?]|[Hsh _]]; [done|].
    apply (subseteq_dom _ _ Hold). by apply shared_at_dom.
Qed.

Lemma deepcopy_closed h v : heap_closed h → heap_closed (deepcopy h v).2.
Proof.
  intros Hclosed.
  destruct (deepcopy h v) as [[v'|e] h'] eqn:Hdc; simpl.
  - destruct (deepcopy_cinv h v v' h' (λ _, True) (region_all h)
                (val_ok_all v) Hdc) as (st&(_&Hinv&_)&->).
    by eapply cinv_closed.
  - by apply deepcopy_Raise in Hdc as ->.
Qed.

Lemma deepcopy_is_deepcopy h v v' h' :
  deepcopy h v = (Ok v', h') → is_deepcopy h v h' v'.
Proof.
  intros Hrun.
  assert ((deepcopy h v).2 = h') as Hh by by rewrite Hrun.
  split.
  - rewrite <-Hh. apply deepcopy_old.
  - intros Hclosed. rewrite <-Hh. by apply deepcopy_closed.
  - intros Hclosed d.
    destruct (deepcopy_cinv h v v' h' (λ _, True) (region_all h)
                (val_ok_all v) Hrun) as (st&(_&Hinv&->&Hv)&->).
    apply (read_ren h _ st Hinv); [|done].
    intros l Hsh _ d'. apply read_mono; [apply (cinv_old _ _ _ _ Hinv)|done|].
    by apply shared_at_dom.
  - intros D Hplain Hv.
    destruct (deepcopy_cinv h v v' h' D (plain_region_region _ _ Hplain) Hv
                Hrun) as (st&(_&Hinv&->&Hset)&->).
    assert (val_in (dom st.1 ∖ dom h) (ren st.2 v)) as Hnew.
    { pose proof (ren_settled _ _ _ _ _ Hinv Hset) as Hfs.
      destruct (ren st.2 v) as [| | |k]; try done. simpl in *.
      destruct Hfs as [[? ?]|[Hsh HD]]; [set_solver|].
      by destruct (plain_region_no_shared _ _ _ Hplain HD). }
    split; [done|]. split.
    + intros d. apply (read_ren h _ st Hinv); [|done].
      intros l Hsh HD. by destruct (plain_region_no_shared _ _ _ Hplain HD).
    + intros h'' Hsame d.
      apply (read_new h D ∅ st h'' Hinv); [|done|done].
      intros l HD. by apply (plain_region_no_shared _ _ _ Hplain).
Qed.

Lemma deepcopy_total h D v :
  copyable_region h D → val_ok D v → ∃ v' h', deepcopy h v = (Ok v', h').
Proof.
  intros Hcopy Hv. unfold deepcopy.
  destruct (copy_val_total h D Hcopy (size h) v (h, ∅) ∅) as (v'&st&->);
    [done|apply cinv_init| |by eauto].
  simpl. rewrite dom_empty_L, difference_empty_L. by rewrite size_dom.
Qed.



Lemma plain_region_copyable h D : plain_region h D → copyable_region h D.
Proof.
  intros Hp l Hl. destruct (Hp l Hl) as (o&Ho&Hk&Hfs).
  exists o. split; [done|]. by destruct o.
Qed.

(** On a closed heap that holds no module, generator or frame, every value
    of the heap can be copied. *)
Lemma closed_heap_copyable h :
  heap_closed h → (∀ l kind, h !! l ≠ Some (OOpaque kind)) →
  copyable_region h (whole h).
Proof.
  intros Hclosed Hno l Hl. apply elem_of_dom in Hl as [o Ho].
  exists o. split; [done|].
  destruct o as [vs|c b ns vs|kind ns vs|kind]; [| |done|by destruct (Hno l kind)].
  all: eapply Forall_impl; [apply (Hclosed _ _ Ho)|]; by intros [| | |k].
Qed.

(** On a closed heap of lists and instances, every value of the heap is
    copied in full. *)
Lemma closed_heap_plain h :
  heap_closed h → (∀ l o, h !! l = Some o → copied_kind o = true) →
  plain_region h (whole h).
Proof.
  intros Hclosed Hkind l Hl. apply elem_of_dom in Hl as [o Ho].
  exists o. split; [done|]. split; [by eapply Hkind|].
  eapply Forall_impl; [apply (Hclosed _ _ Ho)|]. by intros [| | |k].
Qed.


(** The fuel [deepcopy] gives the copier is never used up. *)
Lemma copy_list_fuel (h0 : gmap nat Obj) D P (f : nat) cp (vs : list Value) :
  (∀ v st r st2, v ∈ vs → cinv h0 D P st →
     (size (dom h0 ∖ dom st.2) ≤ f)%nat → cp v st = (r, st2) →
     r ≠ Raise OutOfFuel ∧ copied h0 D P v st r st2) →
  ∀ st r st2, cinv h0 D P st → (size (dom h0 ∖ dom st.2) ≤ f)%nat →
    copy_list cp vs st = (r, st2) → r ≠ Raise OutOfFuel.
Proof.
  induction vs as [|x xs IH]; intros Hcp st r st2 Hinv Hsz Hrun;
    simpl in Hrun; [by injection Hrun as <- <-|].
  destruct (cp x st) as [[x'|e] st1] eqn:Hx.
  2:{ injection Hrun as <- <-.
      intros [= ->].
      by apply (proj1 (Hcp x st _ _ ltac:(by left) Hinv Hsz Hx)). }
  destruct (Hcp x st _ _ ltac:(by left) Hinv Hsz Hx)
    as (_&[Hm1 _]&Hinv1&_).
  destruct (copy_list cp xs st1) as [[xs'|e] st1'] eqn:Hxs;
    injection Hrun as <- <-; [done|].
  apply (IH (λ v s r s2 Hv, Hcp v s r s2 (list_elem_of_further _ _ _ Hv))
            st1 (Raise e) st1' Hinv1); [|done].
  etrans; [|done]. apply subseteq_size.
  apply subseteq_dom in Hm1. set_solver.
Qed.

Lemma copy_val_fuel (h0 : gmap nat Obj) :
  ∀ (fuel : nat) v st r st2 P, cinv h0 (λ _, True) P st →
    (size (dom h0 ∖ dom st.2) ≤ fuel)%nat →
    copy_val h0 fuel v st = (r, st2) → r ≠ Raise OutOfFuel.
Proof.
  induction fuel as [|f IH]; intros v [h m] r st2 P Hinv Hsz Hrun.
  all: destruct v as [| | |l]; try by injection Hrun as <- <-.
  all: destruct (m !! l) as [l'|] eqn:Hl;
    [rewrite (copy_val_memo _ _ l l') in Hrun by done;
     by injection Hrun as <- <-|].
  all: destruct (h0 !! l) as [o|] eqn:Ho;
    [|rewrite copy_val_dangling in Hrun by done; by injection Hrun as <- <-].
  all: destruct (copied_kind o) eqn:Hkind;
    [|destruct o as [| |k ns vs|k]; try done;
      [rewrite (copy_val_shared _ _ _ _ k ns vs) in Hrun by done
      |rewrite (copy_val_opaque _ _ _ _ k) in Hrun by done];
      by injection Hrun as <- <-].
  all: rewrite (copy_val_copying _ _ _ _ o) in Hrun by done.
  all: assert (l ∈ dom h0 ∖ dom m) as Hin
    by (apply elem_of_difference; split;
        [by apply elem_of_dom|by apply not_elem_of_dom]).
  - simpl in Hsz.
    assert (dom h0 ∖ dom m ≡ ∅) as Hemp by (apply size_empty_iff; lia).
    set_solver.
  - simpl in *.
    pose proof (cinv_alloc _ _ _ _ _ _ _ Hinv Hl Ho Hkind) as Hinv1.
    destruct (copy_list (copy_val h0 f) (obj_fields o) _)
      as [rl st1] eqn:Hvs.
    assert (rl ≠ Raise OutOfFuel) as Hrl.
    { eapply (copy_list_fuel h0 (λ _, True) (P ∪ {[l]}) f); [|done| |done].
      - intros v st r' st' _ Hinvst Hszst Hr. split; [by eapply IH|].
        by apply (copy_val_copied _ _ (region_all h0) _ _ _ _ _ _ Hr
                    (val_ok_all v)).
      - simpl. rewrite dom_insert_L.
        assert (dom h0 ∖ ({[l]} ∪ dom m) ⊂ dom h0 ∖ dom m) as Hlt
          by set_solver.
        apply subset_size in Hlt. lia. }
    destruct rl as [vs'|e]; injection Hrun as <- <-; [done|].
    intros [= ->]. by apply Hrl.
Qed.

Lemma deepcopy_fuel_suffices h v : (deepcopy h v).1 ≠ Raise OutOfFuel.
Proof.
  unfold deepcopy.
  destruct (copy_val h (size h) v (h, ∅)) as [[v'|e] st] eqn:Hrun; [done|].
  simpl. intros [= ->].
  eapply (copy_val_fuel h _ _ _ _ _ ∅ (cinv_init h _)); [|done|done].
  simpl. rewrite dom_empty_L, difference_empty_L. by rewrite size_dom.
Qed.

End deepcopy_facts.

(* ===================================================================== *)
(** * Facts about the logger *)
(* ===================================================================== *)

Section logger_facts.

Context {VS : Type} `{!ValueStack VS}.
Context (hasjrel hasjabs : list Z).

Implicit Types (w : @World VS) (lg : @Logger VS) (frame : Frame)
  (instr : Instruction) (k v x t : Value) (n : string).

Lemma bind_Ok {A B} (c : @M VS A) (f : A → @M VS B) w a w1 :
  c w = (Ok a, w1) → bind c f w = f a w1.
Proof. intros Hc. unfold bind. by rewrite Hc. Qed.

Lemma bind_Raise {A B} (c : @M VS A) (f : A → @M VS B) w e w1 :
  c w = (Raise e, w1) → bind c f w = (Raise e, w1).
Proof. intros Hc. unfold bind. by rewrite Hc. Qed.

Lemma _tos_run w : _tos w = (vs_tos (value_stack (self w)), w).
Proof. unfold _tos, bind, get_self, lift. simpl. by destruct (vs_tos _). Qed.

Lemma _tos1_run w : _tos1 w = (vs_tos1 (value_stack (self w)), w).
Proof. unfold _tos1, bind, get_self, lift. simpl. by destruct (vs_tos1 _). Qed.

Lemma mutations_append_run (m : Mutation) w :
  mutations_append m w = (Ok tt, mkWorld (log_mutation m (self w)) (heap w)).
Proof. reflexivity. Qed.

Lemma _log_changed_value_record frame instr :
  _log_changed_value frame instr
  = bind (record frame instr) (λ _, handle_instruction instr).
Proof. reflexivity. Qed.

(** [_deepcopy_from_frame] resolves the name and copies what it finds. *)
Lemma _deepcopy_from_frame_resolve frame k w :
  _deepcopy_from_frame frame k w =
    if hashable (heap w) k then
      match resolve frame k with
      | Some x =>
          ((deepcopy (heap w) x).1, mkWorld (self w) (deepcopy (heap w) x).2)
      | None => (Raise KeyError, w)
      end
    else (Raise TypeError, w).
Proof.
  unfold _deepcopy_from_frame, resolve, bind, lift, get_heap, deepcopy_m,
    dict_contains, dict_getitem. simpl.
  destruct (hashable (heap w) k); [|done].
  destruct (dict_lookup (f_locals frame) k) as [x|] eqn:Hl.
  { rewrite bool_decide_eq_true_2 by eauto. simpl.
    by destruct (deepcopy (heap w) x). }
  rewrite bool_decide_eq_false_2 by (by intros [??]).
  destruct (dict_lookup (f_globals frame) k) as [x|] eqn:Hg.
  { rewrite bool_decide_eq_true_2 by eauto. simpl.
    by destruct (deepcopy (heap w) x). }
  rewrite bool_decide_eq_false_2 by (by intros [??]).
  destruct (dict_lookup (f_builtins frame) k) as [x|] eqn:Hb; [|done].
  by destruct (deepcopy (heap w) x).
Qed.

Lemma _deepcopy_from_frame_Ok frame k w v' w' :
  _deepcopy_from_frame frame k w = (Ok v', w') →
  self w' = self w ∧
  ∃ x, resolve frame k = Some x ∧ deepcopy (heap w) x = (Ok v', heap w').
Proof.
  rewrite _deepcopy_from_frame_resolve.
  destruct (hashable (heap w) k); [|done].
  destruct (resolve frame k) as [x|]; [|done].
  destruct (deepcopy (heap w) x) as [r h1] eqn:Hd.
  intros [= -> <-]. eauto.
Qed.

Lemma _deepcopy_from_frame_Raise frame k w e w' :
  _deepcopy_from_frame frame k w = (Raise e, w') → w' = w.
Proof.
  rewrite _deepcopy_from_frame_resolve.
  destruct (hashable (heap w) k); [|by intros [= _ <-]].
  destruct (resolve frame k) as [x|]; [|by intros [= _ <-]].
  destruct (deepcopy (heap w) x) as [r h1] eqn:Hd.
  intros [= -> <-]. apply deepcopy_Raise in Hd as ->. by destruct w.
Qed.

Lemma resolve_hashable frame k x (h : gmap nat Obj) :
  resolve frame k = Some x → hashable h k = true.
Proof. by destruct k. Qed.

(** The recorder, case by case. *)
Lemma record_store_name frame instr w x t v' (h' : gmap nat Obj) :
  is_store_name instr = true →
  resolve frame (argval instr) = Some x →
  vs_tos (value_stack (self w)) = Ok t →
  deepcopy (heap w) x = (Ok v', h') →
  record frame instr w =
    (Ok tt, mkWorld (log_mutation (mkMutation (argval instr) v' t) (self w))
                    h').
Proof.
  intros Hsn Hres Htos Hdc. unfold record. rewrite Hsn.
  rewrite (bind_Ok _ _ w v' (mkWorld (self w) h'))
    by (rewrite _deepcopy_from_frame_resolve,
          (resolve_hashable _ _ _ _ Hres); by rewrite Hres, Hdc).
  by rewrite (bind_Ok _ _ _ t (mkWorld (self w) h'))
    by (rewrite _tos_run; simpl; by rewrite Htos).
Qed.

Lemma record_store_attr frame instr w k x t1 v' (h' : gmap nat Obj) :
  is_store_name instr = false →
  is_store_attr instr = true →
  vs_tos (value_stack (self w)) = Ok k →
  vs_tos1 (value_stack (self w)) = Ok t1 →
  resolve frame k = Some x →
  deepcopy (heap w) x = (Ok v', h') →
  record frame instr w =
    (Ok tt, mkWorld (log_mutation (mkMutation k v' t1) (self w)) h').
Proof.
  intros Hsn Hsa Htos Htos1 Hres Hdc. unfold record. rewrite Hsn, Hsa.
  rewrite (bind_Ok _ _ w k w) by (by rewrite _tos_run, Htos).
  rewrite (bind_Ok _ _ w k w) by (by rewrite _tos_run, Htos).
  rewrite (bind_Ok _ _ w v' (mkWorld (self w) h'))
    by (rewrite _deepcopy_from_frame_resolve,
          (resolve_hashable _ _ _ _ Hres); by rewrite Hres, Hdc).
  by rewrite (bind_Ok _ _ _ t1 (mkWorld (self w) h'))
    by (rewrite _tos1_run; simpl; by rewrite Htos1).
Qed.


(** What the recorder leaves behind: either nothing at all, or a copy in
    the heap and its record at the end of the log, made for the value its
    target resolves to; nothing else of the logger moves. *)
Lemma record_frame_rule frame instr w r w' :
  record frame instr w = (r, w') →
  instructions (self w') = instructions (self w) ∧
  execution_start_index (self w') = execution_start_index (self w) ∧
  next_jump_location (self w') = next_jump_location (self w) ∧
  value_stack (self w') = value_stack (self w) ∧
  (mutations (self w') = mutations (self w) ∨
   ∃ m x, r = Ok tt ∧ mutations (self w') = mutations (self w) ++ [m] ∧
          resolve frame (target m) = Some x ∧
          deepcopy (heap w) x = (Ok (value m), heap w')).
Proof.
  unfold record. destruct (is_store_name instr).
  - unfold bind at 1.
    destruct (_deepcopy_from_frame frame (argval instr) w) as [[v|e] w1] eqn:Hd.
    + apply _deepcopy_from_frame_Ok in Hd as (Hs&x&Hres&Hdc).
      unfold bind. rewrite _tos_run.
      destruct (vs_tos (value_stack (self w1))) as [t|e]; intros [= <- <-];
        simpl; rewrite ?Hs; (repeat split; [done ..|]); [|by left].
      right. eexists (mkMutation _ _ _), _. eauto.
    + apply _deepcopy_from_frame_Raise in Hd as ->. intros [= <- <-]. eauto 10.
  - destruct (is_store_attr instr); [|intros [= <- <-]; eauto 10].
    unfold bind at 1. rewrite _tos_run.
    destruct (vs_tos (value_stack (self w))) as [t|e] eqn:Htos;
      [|intros [= <- <-]; eauto 10].
    unfold bind at 1. rewrite _tos_run, Htos. unfold bind at 1.
    destruct (_deepcopy_from_frame frame t w) as [[v|e] w1] eqn:Hd.
    + apply _deepcopy_from_frame_Ok in Hd as (Hs&x&Hres&Hdc).
      unfold bind. rewrite _tos1_run.
      destruct (vs_tos1 (value_stack (self w1))) as [t1|e]; intros [= <- <-];
        simpl; rewrite ?Hs; (repeat split; [done ..|]); [|by left].
      right. eexists (mkMutation _ _ _), _. eauto.
    + apply _deepcopy_from_frame_Raise in Hd as ->. intros [= <- <-]. eauto 10.
Qed.

(** The simulator half moves the stack only. *)
Lemma handle_instruction_frame_rule instr w r w' :
  handle_instruction instr w = (r, w') →
  instructions (self w') = instructions (self w) ∧
  execution_start_index (self w') = execution_start_index (self w) ∧
  next_jump_location (self w') = next_jump_location (self w) ∧
  mutations (self w') = mutations (self w) ∧
  heap w' = heap w ∧
  vs_handle_instruction instr (value_stack (self w))
    = (r, value_stack (self w')).
Proof.
  unfold handle_instruction.
  destruct (vs_handle_instruction instr (value_stack (self w))) as [r' s'].
  by intros [= <- <-].
Qed.

Lemma same_cursor_refl w : same_cursor w w.
Proof. by repeat split. Qed.

Lemma same_cursor_trans w1 w2 w3 :
  same_cursor w1 w2 → same_cursor w2 w3 → same_cursor w1 w3.
Proof. unfold same_cursor. intros (?&?&?) (?&?&?). repeat split; congruence. Qed.

Lemma _log_changed_value_cursor frame instr w r w' :
  _log_changed_value frame instr w = (r, w') → same_cursor w w'.
Proof.
  rewrite _log_changed_value_record. unfold bind.
  destruct (record frame instr w) as [[[]|e] w1] eqn:Hrec.
  - intros Hh. apply record_frame_rule in Hrec as (?&?&?&_).
    apply handle_instruction_frame_rule in Hh as (?&?&?&_).
    repeat split; congruence.
  - intros [= _ <-]. by apply record_frame_rule in Hrec as (?&?&?&_).
Qed.

Lemma scan_step frame i offsets w instr :
  instructions (self w) !! i = Some instr →
  scan frame (i :: offsets) w =
    match _log_changed_value frame instr w with
    | (Ok _, w1) => scan frame offsets w1
    | (Raise e, w1) => (Raise e, w1)
    end.
Proof.
  intros Hi. unfold scan. simpl.
  unfold bind at 1 2. unfold instructions_getitem, bind, get_self. simpl.
  rewrite Hi. simpl.
  by destruct (_log_changed_value frame instr w) as [[[]|e] w1].
Qed.

Lemma scan_missing frame i offsets w :
  instructions (self w) !! i = None →
  scan frame (i :: offsets) w = (Raise KeyError, w).
Proof.
  intros Hi. unfold scan. simpl.
  unfold bind at 1 2. unfold instructions_getitem, bind, get_self. simpl.
  by rewrite Hi.
Qed.

Lemma scan_cursor frame offsets :
  ∀ w r w', scan frame offsets w = (r, w') → same_cursor w w'.
Proof.
  induction offsets as [|i offsets IH]; intros w r w' Hrun.
  - injection Hrun as <- <-. apply same_cursor_refl.
  - destruct (instructions (self w) !! i) as [instr|] eqn:Hi.
    + rewrite (scan_step _ _ _ _ _ Hi) in Hrun.
      destruct (_log_changed_value frame instr w) as [[[]|e] w1] eqn:Hlog;
        apply _log_changed_value_cursor in Hlog.
      * eapply same_cursor_trans; [done|]. by eapply IH.
      * by injection Hrun as <- <-.
    + rewrite (scan_missing _ _ _ _ Hi) in Hrun. injection Hrun as <- <-.
      apply same_cursor_refl.
Qed.

Lemma detect_chanages_jump_taken frame w :
  next_jump_location (self w) = Some (f_lasti frame) →
  detect_chanages hasjrel hasjabs frame w =
    bind (set_execution_start_index (f_lasti frame))
         (λ _, rederive_jump hasjrel hasjabs (f_lasti frame)) w.
Proof.
  intros Hj. unfold detect_chanages. unfold bind at 1, get_self. simpl.
  by rewrite bool_decide_eq_true_2.
Qed.

Lemma detect_chanages_linear frame w :
  next_jump_location (self w) ≠ Some (f_lasti frame) →
  detect_chanages hasjrel hasjabs frame w =
    bind (scan frame (range2 (execution_start_index (self w)) (f_lasti frame)))
         (λ _, bind (rederive_jump hasjrel hasjabs (f_lasti frame))
         (λ _, set_execution_start_index (f_lasti frame))) w.
Proof.
  intros Hj. unfold detect_chanages. unfold bind at 1, get_self. simpl.
  rewrite bool_decide_eq_false_2; [|congruence].
  unfold scan, rederive_jump, bind.
  destruct (for_each _ _ w) as [[[]|e] w1]; [|done].
  by destruct (instructions_getitem (f_lasti frame) w1) as [[instr|e] w2].
Qed.

(** What re-deriving the jump location does to the logger. *)
Lemma rederive_jump_run last_i w r w' :
  rederive_jump hasjrel hasjabs last_i w = (r, w') →
  instructions (self w') = instructions (self w) ∧
  execution_start_index (self w') = execution_start_index (self w) ∧
  value_stack (self w') = value_stack (self w) ∧
  mutations (self w') = mutations (self w) ∧
  heap w' = heap w ∧
  match r with
  | Ok _ =>
      ∃ instr, instructions (self w) !! last_i = Some instr ∧
        next_jump_location (self w') =
          if bool_decide (opcode instr ∈ hasjrel)
          then (λ a, offset instr + 2 + a) <$> arg instr
          else if bool_decide (opcode instr ∈ hasjabs) then arg instr
          else None
  | Raise e =>
      w' = w ∧
      (instructions (self w) !! last_i = None ∨
       ∃ instr, instructions (self w) !! last_i = Some instr ∧
                opcode instr ∈ hasjrel ∧ arg instr = None)
  end.
Proof.
  unfold rederive_jump, bind, instructions_getitem, get_self, bind. simpl.
  destruct (instructions (self w) !! last_i) as [instr|] eqn:Hi; simpl;
    [|intros [= <- <-]; eauto 10].
  unfold _record_jump_location_if_exists.
  destruct (bool_decide (opcode instr ∈ hasjrel)) eqn:Hrel.
  - destruct (arg instr) as [a|] eqn:Ha.
    + intros [= <- <-]. simpl. repeat split; try done.
      exists instr. by rewrite Hrel, Ha.
    + intros [= <- <-]. repeat split; try done. right. exists instr.
      by apply bool_decide_eq_true_1 in Hrel.
  - destruct (bool_decide (opcode instr ∈ hasjabs)) eqn:Habs;
      intros [= <- <-]; simpl; repeat split; try done;
      exists instr; by rewrite Hrel, Habs.
Qed.

Lemma build_instructions_wf code : table_wf (build_instructions code).
Proof.
  unfold build_instructions.
  assert (∀ tbl, table_wf tbl →
            table_wf (foldl (λ m instr, <[offset instr := instr]> m) tbl code))
    as Hgen.
  { induction code as [|instr code IH]; intros tbl Htbl; [done|].
    simpl. apply IH. by apply map_Forall_insert_2. }
  apply Hgen, map_Forall_empty.
Qed.

Lemma Logger_init_wf frame : table_wf (instructions (Logger_init frame)).
Proof. apply build_instructions_wf. Qed.

(** One observation, branch by branch. *)
Lemma detect_chanages_jump_run frame w r w' :
  next_jump_location (self w) = Some (f_lasti frame) →
  detect_chanages hasjrel hasjabs frame w = (r, w') →
  rederive_jump hasjrel hasjabs (f_lasti frame)
    (mkWorld (mkLogger (instructions (self w)) (f_lasti frame)
                       (next_jump_location (self w)) (value_stack (self w))
                       (mutations (self w)))
             (heap w)) = (r, w').
Proof.
  intros Hj. rewrite (detect_chanages_jump_taken _ _ Hj).
  unfold bind at 1. by unfold set_execution_start_index, bind, get_self, put_self.
Qed.

Lemma detect_chanages_linear_Ok frame w w' :
  next_jump_location (self w) ≠ Some (f_lasti frame) →
  detect_chanages hasjrel hasjabs frame w = (Ok tt, w') →
  ∃ w1 w2,
    scan frame (range2 (execution_start_index (self w)) (f_lasti frame)) w
      = (Ok tt, w1) ∧
    rederive_jump hasjrel hasjabs (f_lasti frame) w1 = (Ok tt, w2) ∧
    w' = mkWorld (mkLogger (instructions (self w2)) (f_lasti frame)
                           (next_jump_location (self w2))
                           (value_stack (self w2)) (mutations (self w2)))
                 (heap w2).
Proof.
  intros Hj. rewrite (detect_chanages_linear _ _ Hj). unfold bind.
  destruct (scan _ _ w) as [[[]|e] w1] eqn:Hscan; [|done].
  destruct (rederive_jump hasjrel hasjabs _ w1) as [[[]|e] w2] eqn:Hre; [|done].
  unfold set_execution_start_index, bind, get_self, put_self.
  intros [= <-]. exists w1, w2. by rewrite Hre.
Qed.

Lemma range2_last (start stop o : Z) :
  last (range2 start stop) = Some o → Z.even (stop - start) = true →
  o + 2 = stop.
Proof.
  unfold range2. intros Hlast Heven.
  apply Z.even_spec in Heven as [q Hq].
  replace ((stop - start + 1) / 2) with q in Hlast
    by (apply Z.div_unique with 1; lia).
  destruct (Z.to_nat q) as [|c] eqn:Hc; [done|].
  rewrite seq_S, map_app in Hlast. simpl in Hlast.
  rewrite last_snoc in Hlast. injection Hlast as <-. lia.
Qed.

(** C3.  No-scan-on-jump: when the instruction pointer is the recorded jump
    target, whatever jump recorded it, the observation appends no mutation,
    takes no snapshot (the heap is as before), moves
    [execution_start_index] to the pointer, and returns normally as soon as
    the instruction at the pointer decodes. *)
Theorem jump_taken_appends_nothing frame w :
  next_jump_location (self w) = Some (f_lasti frame) →
  mutations (self (detect_chanages hasjrel hasjabs frame w).2)
    = mutations (self w) ∧
  heap (detect_chanages hasjrel hasjabs frame w).2 = heap w ∧
  execution_start_index (self (detect_chanages hasjrel hasjabs frame w).2)
    = f_lasti frame ∧
  (∀ instr, instructions (self w) !! f_lasti frame = Some instr →
     (opcode instr ∈ hasjrel → is_Some (arg instr)) →
     (detect_chanages hasjrel hasjabs frame w).1 = Ok tt).
Proof.
  intros Hj.
  destruct (detect_chanages hasjrel hasjabs frame w) as [r w'] eqn:Hrun.
  apply (detect_chanages_jump_run _ _ _ _ Hj) in Hrun.
  apply rederive_jump_run in Hrun as (_&Hesi&_&Hmut&Hheap&Hr). simpl in *.
  repeat split; try done.
  intros instr Hi Harg. destruct r as [[]|e]; [done|].
  destruct Hr as (_&[Hnone|(instr'&Hi'&Hrel&Hnoarg)]); [congruence|].
  assert (instr' = instr) as -> by congruence.
  destruct (Harg Hrel) as [a Ha]. congruence.
Qed.

(** C8.  After an observation that completes, [execution_start_index] is
    the frame's instruction pointer.  On the linear branch, when the pointer
    and the old index have the same parity, that is the offset right after
    the last instruction scanned. *)
Theorem start_index_is_last_i frame w w' :
  detect_chanages hasjrel hasjabs frame w = (Ok tt, w') →
  execution_start_index (self w') = f_lasti frame ∧
  (next_jump_location (self w) ≠ Some (f_lasti frame) →
   Z.even (f_lasti frame - execution_start_index (self w)) = true →
   ∀ o, last (range2 (execution_start_index (self w)) (f_lasti frame))
          = Some o →
        execution_start_index (self w') = o + 2).
Proof.
  intros Hrun.
  assert (execution_start_index (self w') = f_lasti frame) as Hesi.
  { destruct (decide (next_jump_location (self w) = Some (f_lasti frame)))
      as [Hj|Hj].
    - apply (detect_chanages_jump_run _ _ _ _ Hj) in Hrun.
      by apply rederive_jump_run in Hrun as (_&->&_).
    - by apply (detect_chanages_linear_Ok _ _ _ Hj) in Hrun as (?&?&_&_&->). }
  split; [done|]. intros _ Heven o Hlast.
  rewrite Hesi. symmetry. by eapply range2_last.
Qed.

(** No observation changes the table. *)
Lemma detect_chanages_instructions frame w :
  instructions (self (detect_chanages hasjrel hasjabs frame w).2)
  = instructions (self w).
Proof.
  destruct (detect_chanages hasjrel hasjabs frame w) as [r w'] eqn:Hrun.
  simpl.
  destruct (decide (next_jump_location (self w) = Some (f_lasti frame)))
    as [Hj|Hj].
  - apply (detect_chanages_jump_run _ _ _ _ Hj) in Hrun.
    by apply rederive_jump_run in Hrun as (->&_).
  - rewrite (detect_chanages_linear _ _ Hj) in Hrun. unfold bind in Hrun.
    destruct (scan _ _ w) as [[[]|e] w1] eqn:Hscan;
      apply scan_cursor in Hscan as (Hins&_);
      [|injection Hrun as <- <-; done].
    destruct (rederive_jump hasjrel hasjabs _ w1) as [[[]|e] w2] eqn:Hre;
      apply rederive_jump_run in Hre as (Hins2&_);
      injection Hrun as <- <-; simpl; congruence.
Qed.

Lemma reachable_table_wf frame0 w :
  reachable hasjrel hasjabs frame0 w → table_wf (instructions (self w)).
Proof.
  induction 1 as [h|frame w _ IH|w h _ IH]; simpl.
  - apply build_instructions_wf.
  - by rewrite detect_chanages_instructions.
  - done.
Qed.

(** C4.  After an observation that completes, [next_jump_location] is
    derived from the instruction at the pointer [last_i]: [last_i + 2 + D]
    for a relative jump of operand [D] (2 is the instruction width, the step
    of the scan), [A] for an absolute jump of operand [A], and [None] for
    any other instruction. *)
Theorem next_jump_location_rederived frame w w' :
  table_wf (instructions (self w)) →
  detect_chanages hasjrel hasjabs frame w = (Ok tt, w') →
  ∃ instr,
    instructions (self w) !! f_lasti frame = Some instr ∧
    (opcode instr ∈ hasjrel → ∀ D, arg instr = Some D →
       next_jump_location (self w') = Some (f_lasti frame + 2 + D)) ∧
    (opcode instr ∉ hasjrel → opcode instr ∈ hasjabs →
       ∀ A, arg instr = Some A → next_jump_location (self w') = Some A) ∧
    (opcode instr ∉ hasjrel → opcode instr ∉ hasjabs →
       next_jump_location (self w') = None).
Proof.
  intros Hwf Hrun.
  assert (∃ instr, instructions (self w) !! f_lasti frame = Some instr ∧
            next_jump_location (self w') =
              if bool_decide (opcode instr ∈ hasjrel)
              then (λ a, offset instr + 2 + a) <$> arg instr
              else if bool_decide (opcode instr ∈ hasjabs) then arg instr
              else None) as (instr&Hi&Hnjl).
  { destruct (decide (next_jump_location (self w) = Some (f_lasti frame)))
      as [Hj|Hj].
    - apply (detect_chanages_jump_run _ _ _ _ Hj) in Hrun.
      by apply rederive_jump_run in Hrun as (_&_&_&_&_&Hr).
    - apply (detect_chanages_linear_Ok _ _ _ Hj) in Hrun
        as (w1&w2&Hscan&Hre&->). simpl.
      apply scan_cursor in Hscan as (Hins&_).
      apply rederive_jump_run in Hre as (_&_&_&_&_&instr&Hi&Hr).
      exists instr. by rewrite <-Hins. }
  exists instr. split; [done|].
  rewrite (Hwf _ _ Hi) in Hnjl.
  split; [|split].
  - intros Hrel D HD. by rewrite Hnjl, bool_decide_eq_true_2, HD.
  - intros Hrel Habs A HA.
    by rewrite Hnjl, bool_decide_eq_false_2, bool_decide_eq_true_2.
  - intros Hrel Habs. by rewrite Hnjl, !bool_decide_eq_false_2.
Qed.

(** The priority of the scopes. *)
Lemma resolve_priority frame n x :
  (f_locals frame !! n = Some x → resolve frame (VStr n) = Some x) ∧
  (f_locals frame !! n = None → f_globals frame !! n = Some x →
     resolve frame (VStr n) = Some x) ∧
  (f_locals frame !! n = None → f_globals frame !! n = None →
     resolve frame (VStr n) = f_builtins frame !! n).
Proof.
  unfold resolve. simpl. split_and!.
  - by intros ->.
  - by intros -> ->.
  - by intros -> ->.
Qed.

Lemma absent_resolve frame n : absent frame n → resolve frame (VStr n) = None.
Proof. intros (Hl&Hg&Hb). unfold resolve. simpl. by rewrite Hl, Hg, Hb. Qed.

Lemma record_unresolved frame instr w :
  unresolved_store frame instr (value_stack (self w)) →
  record frame instr w = (Raise KeyError, w).
Proof.
  intros (n&Habs&Hcase).
  pose proof (absent_resolve _ _ Habs) as Hres. unfold record.
  destruct Hcase as [(Hsn&Harg)|(Hsn&Hsa&Htos)]; rewrite Hsn.
  - apply bind_Raise. rewrite _deepcopy_from_frame_resolve, Harg.
    simpl. by rewrite Hres.
  - rewrite Hsa.
    rewrite (bind_Ok _ _ w (VStr n) w) by (by rewrite _tos_run, Htos).
    rewrite (bind_Ok _ _ w (VStr n) w) by (by rewrite _tos_run, Htos).
    apply bind_Raise. rewrite _deepcopy_from_frame_resolve.
    simpl. by rewrite Hres.
Qed.

(** C10.  At a store whose target name is in none of the three scopes, the
    [KeyError] is raised before any [Mutation] is built: the log, and with
    it the whole logger and the heap, are as they were before the
    instruction. *)
Theorem unresolved_store_appends_nothing frame instr w :
  unresolved_store frame instr (value_stack (self w)) →
  _log_changed_value frame instr w = (Raise KeyError, w) ∧
  mutations (self (_log_changed_value frame instr w).2) = mutations (self w).
Proof.
  intros Hun.
  assert (_log_changed_value frame instr w = (Raise KeyError, w)) as Hrun.
  { rewrite _log_changed_value_record. by apply bind_Raise, record_unresolved. }
  by rewrite Hrun.
Qed.


(** C1, as amended.  At [STORE_ATTR], the record appended has as target the
    top of the shadow stack, as value a deep copy of what that top resolves
    to in the frame's scopes, and as source the second entry of the stack
    (the value being assigned), for every value [copy.deepcopy] accepts. *)
Theorem store_attr_mutation frame instr w n x t1 (D : nat → Prop) :
  is_store_name instr = false →
  is_store_attr instr = true →
  vs_tos (value_stack (self w)) = Ok (VStr n) →
  vs_tos1 (value_stack (self w)) = Ok t1 →
  resolve frame (VStr n) = Some x →
  copyable_region (heap w) D → val_ok D x →
  ∃ v',
    mutations (self (_log_changed_value frame instr w).2)
      = mutations (self w) ++ [mkMutation (VStr n) v' t1] ∧
    deepcopy (heap w) x
      = (Ok v', heap (_log_changed_value frame instr w).2) ∧
    is_deepcopy (heap w) x (heap (_log_changed_value frame instr w).2) v'.
Proof.
  intros Hsn Hsa Htos Htos1 Hres Hcopy Hx.
  destruct (deepcopy_total _ _ _ Hcopy Hx) as (v'&h'&Hdc).
  exists v'.
  assert (record frame instr w =
            (Ok tt, mkWorld (log_mutation (mkMutation (VStr n) v' t1) (self w))
                            h')) as Hrec.
  { by apply (record_store_attr _ _ _ _ x). }
  rewrite _log_changed_value_record, (bind_Ok _ _ _ _ _ Hrec).
  destruct (handle_instruction instr _) as [r w'] eqn:Hh.
  apply handle_instruction_frame_rule in Hh as (_&_&_&Hmut&Hheap&_).
  simpl in *. rewrite Hmut, Hheap. split; [done|]. split; [done|].
  by apply deepcopy_is_deepcopy.
Qed.

Lemma scan_app frame pre post :
  ∀ w, scan frame (pre ++ post) w =
         match scan frame pre w with
         | (Ok _, w1) => scan frame post w1
         | (Raise e, w1) => (Raise e, w1)
         end.
Proof.
  induction pre as [|i pre IH]; intros w; [done|].
  change (scan frame ((i :: pre) ++ post) w)
    with (bind (bind (instructions_getitem i) (_log_changed_value frame))
               (λ _, scan frame (pre ++ post)) w).
  change (scan frame (i :: pre) w)
    with (bind (bind (instructions_getitem i) (_log_changed_value frame))
               (λ _, scan frame pre) w).
  unfold bind at 1 3.
  destruct (bind (instructions_getitem i) (_log_changed_value frame) w)
    as [[[]|e] w1]; [apply IH|done].
Qed.

(** C2, as amended.  A store whose target name is in none of the three
    scopes stops the observation: the [KeyError] leaves [detect_chanages]
    at that instruction, with the records of the instructions before it in
    the log, nothing for it or for the instructions after it, and the scan
    cursor where it was. *)
Theorem unresolved_store_aborts_observation frame w pre i post instr w1 :
  next_jump_location (self w) ≠ Some (f_lasti frame) →
  range2 (execution_start_index (self w)) (f_lasti frame)
    = pre ++ i :: post →
  scan frame pre w = (Ok tt, w1) →
  instructions (self w) !! i = Some instr →
  unresolved_store frame instr (value_stack (self w1)) →
  detect_chanages hasjrel hasjabs frame w = (Raise KeyError, w1) ∧
  execution_start_index (self w1) = execution_start_index (self w) ∧
  next_jump_location (self w1) = next_jump_location (self w).
Proof.
  intros Hj Hrange Hpre Hi Hun.
  pose proof (scan_cursor _ _ _ _ _ Hpre) as (Hins&Hesi&Hnjl).
  split; [|done].
  rewrite (detect_chanages_linear _ _ Hj), Hrange.
  apply bind_Raise. rewrite scan_app, Hpre.
  rewrite (scan_step _ _ _ _ instr) by by rewrite Hins.
  rewrite _log_changed_value_record.
  by rewrite (bind_Raise _ _ _ _ _ (record_unresolved _ _ _ Hun)).
Qed.

(** ** The exhaustive linear scan *)



Lemma handle_instruction_run instr w r s' :
  vs_handle_instruction instr (value_stack (self w)) = (r, s') →
  handle_instruction instr w =
    (r, mkWorld (mkLogger (instructions (self w))
                          (execution_start_index (self w))
                          (next_jump_location (self w)) s'
                          (mutations (self w)))
                (heap w)).
Proof. intros Hh. unfold handle_instruction. by rewrite Hh. Qed.






(** ** Snapshots and later mutation *)



End logger_facts.

(** ** The simulator on the jump-taken branch *)

Section simulator_independence.

Context {VS : Type} (I1 I2 : ValueStack VS).
Context (hasjrel hasjabs : list Z).

(** C9.  On the jump-taken branch the shadow stack is left as it is, and
    the observation does the same whatever the simulator is: no instruction
    is handed to it. *)
Theorem jump_taken_stack_untouched frame (w : @World VS) :
  next_jump_location (self w) = Some (f_lasti frame) →
  value_stack (self (@detect_chanages VS I1 hasjrel hasjabs frame w).2)
    = value_stack (self w) ∧
  @detect_chanages VS I1 hasjrel hasjabs frame w
    = @detect_chanages VS I2 hasjrel hasjabs frame w.
Proof.
  intros Hj. split.
  - destruct (@detect_chanages VS I1 hasjrel hasjabs frame w)
      as [r w'] eqn:Hrun.
    apply (detect_chanages_jump_run _ _ _ _ _ _ Hj) in Hrun. simpl.
    by apply rederive_jump_run in Hrun as (_&_&->&_).
  - by rewrite !detect_chanages_jump_taken.
Qed.

End simulator_independence.

(** ** More on one observation *)

Section observation_facts.

Context {VS : Type} `{!ValueStack VS}.
Context (hasjrel hasjabs : list Z).

Implicit Types (w : @World VS) (lg : @Logger VS) (frame : Frame)
  (instr : Instruction) (k v x t : Value) (n : string).

(** The shape of every run of [detect_chanages]. *)
Lemma detect_chanages_cases frame w r w' :
  detect_chanages hasjrel hasjabs frame w = (r, w') →
  (next_jump_location (self w) = Some (f_lasti frame) ∧
   rederive_jump hasjrel hasjabs (f_lasti frame) (moved_to (f_lasti frame) w)
     = (r, w')) ∨
  (next_jump_location (self w) ≠ Some (f_lasti frame) ∧
   ∃ r1 w1,
     scan frame (range2 (execution_start_index (self w)) (f_lasti frame)) w
       = (r1, w1) ∧
     match r1 with
     | Raise e => r = Raise e ∧ w' = w1
     | Ok _ =>
         ∃ r2 w2,
           rederive_jump hasjrel hasjabs (f_lasti frame) w1 = (r2, w2) ∧
           match r2 with
           | Raise e => r = Raise e ∧ w' = w2
           | Ok _ => r = Ok tt ∧ w' = moved_to (f_lasti frame) w2
           end
     end).
Proof.
  intros Hrun.
  destruct (decide (next_jump_location (self w) = Some (f_lasti frame)))
    as [Hj|Hj]; [left|right]; (split; [done|]).
  - by apply (detect_chanages_jump_run _ _ _ _ _ _ Hj) in Hrun.
  - rewrite (detect_chanages_linear _ _ _ _ Hj) in Hrun. unfold bind in Hrun.
    destruct (scan _ _ w) as [r1 w1] eqn:Hscan. exists r1, w1.
    split; [done|]. destruct r1 as [[]|e]; [|by injection Hrun as <- <-].
    destruct (rederive_jump hasjrel hasjabs _ w1) as [r2 w2] eqn:Hre.
    exists r2, w2. split; [done|].
    destruct r2 as [[]|e]; by injection Hrun as <- <-.
Qed.

(** The recorder only allocates. *)
Lemma record_heap frame instr w r w' :
  record frame instr w = (r, w') →
  heap w ⊆ heap w' ∧ (heap_closed (heap w) → heap_closed (heap w')).
Proof.
  assert (∀ k v' w1, _deepcopy_from_frame frame k w = (Ok v', w1) →
            heap w ⊆ heap w1 ∧ (heap_closed (heap w) → heap_closed (heap w1)))
    as Hcopy.
  { intros k v' w1 Hd.
    apply _deepcopy_from_frame_Ok in Hd as (_&x&_&Hdc).
    apply deepcopy_is_deepcopy in Hdc as Hspec.
    split; [apply (dc_old _ _ _ _ Hspec)|apply (dc_closed _ _ _ _ Hspec)]. }
  unfold record. destruct (is_store_name instr).
  - unfold bind at 1.
    destruct (_deepcopy_from_frame frame (argval instr) w) as [[v|e] w1] eqn:Hd.
    + apply Hcopy in Hd. unfold bind. rewrite _tos_run.
      destruct (vs_tos (value_stack (self w1))); by intros [= <- <-].
    + apply _deepcopy_from_frame_Raise in Hd as ->. by intros [= <- <-].
  - destruct (is_store_attr instr); [|by intros [= <- <-]].
    unfold bind at 1. rewrite _tos_run.
    destruct (vs_tos (value_stack (self w))) as [t|e] eqn:Htos;
      [|by intros [= <- <-]].
    unfold bind at 1. rewrite _tos_run, Htos. unfold bind at 1.
    destruct (_deepcopy_from_frame frame t w) as [[v|e] w1] eqn:Hd.
    + apply Hcopy in Hd. unfold bind. rewrite _tos1_run.
      destruct (vs_tos1 (value_stack (self w1))); by intros [= <- <-].
    + apply _deepcopy_from_frame_Raise in Hd as ->. by intros [= <- <-].
Qed.

(** One instruction: the log grows by at most one record, the heap only
    grows. *)
Lemma _log_changed_value_grows frame instr w r w' :
  _log_changed_value frame instr w = (r, w') →
  heap w ⊆ heap w' ∧ (heap_closed (heap w) → heap_closed (heap w')) ∧
  ∃ new, mutations (self w') = mutations (self w) ++ new ∧
         (length new ≤ 1)%nat.
Proof.
  rewrite _log_changed_value_record. unfold bind.
  destruct (record frame instr w) as [r1 w1] eqn:Hrec.
  pose proof (record_heap _ _ _ _ _ Hrec) as [Hsub Hcl].
  apply record_frame_rule in Hrec as (_&_&_&_&Hlog).
  assert (∃ new, mutations (self w1) = mutations (self w) ++ new ∧
                 (length new ≤ 1)%nat) as (new&Hnew&Hlen).
  { destruct Hlog as [->|(m&_&_&->&_)].
    - exists []. split; [by rewrite app_nil_r|simpl; lia].
    - exists [m]. split; [done|simpl; lia]. }
  destruct r1 as [[]|e].
  - intros Hh. apply handle_instruction_frame_rule in Hh as (_&_&_&->&->&_).
    eauto.
  - intros [= <- <-]. eauto.
Qed.

Lemma scan_grows frame (offsets : list Z) :
  ∀ w r w', scan frame offsets w = (r, w') →
    heap w ⊆ heap w' ∧ (heap_closed (heap w) → heap_closed (heap w')) ∧
    ∃ new, mutations (self w') = mutations (self w) ++ new ∧
           (length new ≤ length offsets)%nat.
Proof.
  induction offsets as [|i offsets IH]; intros w r w' Hrun.
  - injection Hrun as <- <-. split; [done|]. split; [done|].
    exists []. split; [by rewrite app_nil_r|simpl; lia].
  - destruct (instructions (self w) !! i) as [instr|] eqn:Hi.
    + rewrite (scan_step _ _ _ _ _ Hi) in Hrun.
      destruct (_log_changed_value frame instr w) as [r1 w1] eqn:Hlog.
      apply _log_changed_value_grows in Hlog as (Hsub1&Hcl1&new1&Hnew1&Hlen1).
      destruct r1 as [[]|e].
      * apply IH in Hrun as (Hsub2&Hcl2&new2&Hnew2&Hlen2).
        split; [by etrans|]. split; [by auto|].
        exists (new1 ++ new2). rewrite Hnew2, Hnew1, app_assoc.
        split; [done|]. rewrite length_app. simpl. lia.
      * injection Hrun as <- <-. split; [done|]. split; [done|].
        exists new1. split; [done|]. simpl. lia.
    + rewrite (scan_missing _ _ _ _ Hi) in Hrun. injection Hrun as <- <-.
      split; [done|]. split; [done|]. exists [].
      split; [by rewrite app_nil_r|simpl; lia].
Qed.


Lemma range2_empty (start stop : Z) : stop ≤ start → range2 start stop = [].
Proof.
  intros Hle. unfold range2.
  assert ((stop - start + 1) / 2 ≤ 0) as Hq.
  { apply Z.lt_succ_r. apply Z.div_lt_upper_bound; lia. }
  by rewrite Z2Nat.nonpos.
Qed.

Lemma map_seq_shift {A} (f : nat → A) (q c : nat) :
  ∀ j : nat, map f (seq (q + j) c) = map (λ i : nat, f (q + i)%nat) (seq j c).
Proof.
  induction c as [|c IH]; intros j; simpl; [done|]. f_equal.
  rewrite <-Nat.add_succ_r. apply IH.
Qed.

Lemma range2_app (a b c : Z) :
  a ≤ b → b ≤ c → Z.even (b - a) = true →
  range2 a c = range2 a b ++ range2 b c.
Proof.
  intros Hab Hbc Heven. unfold range2.
  apply Z.even_spec in Heven as [q Hq].
  replace ((b - a + 1) / 2) with q by (apply Z.div_unique with 1; lia).
  set (p := (c - b + 1) / 2).
  assert (0 ≤ p) as Hp by (apply Z.div_pos; lia).
  replace ((c - a + 1) / 2) with (q + p).
  2:{ unfold p. replace (c - a + 1) with (c - b + 1 + q * 2) by lia.
      rewrite Z.div_add by lia. lia. }
  rewrite Z2Nat.inj_add by lia. rewrite seq_app, map_app. f_equal.
  rewrite (Nat.add_comm 0), map_seq_shift.
  apply map_ext. intros k. lia.
Qed.

(** X1.  The log is append-only: whatever an observation does and however
    it ends, the log it leaves is the old log followed by new records, at
    most one for each offset of the scan range. *)
Theorem log_is_append_only frame w :
  ∃ new,
    mutations (self (detect_chanages hasjrel hasjabs frame w).2)
      = mutations (self w) ++ new ∧
    (length new
     ≤ length (range2 (execution_start_index (self w)) (f_lasti frame)))%nat.
Proof.
  destruct (detect_chanages hasjrel hasjabs frame w) as [r w'] eqn:Hrun.
  simpl. apply detect_chanages_cases in Hrun
    as [[_ Hre]|(_&r1&w1&Hscan&Hrest)].
  - apply rederive_jump_run in Hre as (_&_&_&->&_).
    exists []. split; [by rewrite app_nil_r|simpl; lia].
  - apply scan_grows in Hscan as (_&_&new&Hnew&Hlen). exists new.
    split; [|done]. rewrite <-Hnew.
    destruct r1 as [[]|e]; [|by destruct Hrest as [_ ->]].
    destruct Hrest as (r2&w2&Hre&Hrest).
    apply rederive_jump_run in Hre as (_&_&_&Hmut&_).
    destruct r2 as [[]|e]; destruct Hrest as [_ ->]; by simpl.
Qed.








(** X3.  An observation at or behind the cursor, away from a recorded jump
    target, scans nothing: log, stack and heap are left as they are, and
    when the instruction at the pointer decodes the call returns with the
    cursor moved back to the pointer. *)
Theorem observation_behind_cursor frame w :
  next_jump_location (self w) ≠ Some (f_lasti frame) →
  f_lasti frame ≤ execution_start_index (self w) →
  mutations (self (detect_chanages hasjrel hasjabs frame w).2)
    = mutations (self w) ∧
  value_stack (self (detect_chanages hasjrel hasjabs frame w).2)
    = value_stack (self w) ∧
  heap (detect_chanages hasjrel hasjabs frame w).2 = heap w ∧
  (∀ instr, instructions (self w) !! f_lasti frame = Some instr →
     (opcode instr ∈ hasjrel → is_Some (arg instr)) →
     (detect_chanages hasjrel hasjabs frame w).1 = Ok tt ∧
     execution_start_index (self (detect_chanages hasjrel hasjabs frame w).2)
       = f_lasti frame).
Proof.
  intros Hj Hle.
  destruct (detect_chanages hasjrel hasjabs frame w) as [r w'] eqn:Hrun.
  simpl. apply detect_chanages_cases in Hrun
    as [[Hj' _]|(_&r1&w1&Hscan&Hrest)]; [done|].
  rewrite (range2_empty _ _ Hle) in Hscan. injection Hscan as <- <-.
  destruct Hrest as (r2&w2&Hre&Hrest).
  apply rederive_jump_run in Hre as (_&_&Hs&Hm&Hh&Hr).
  assert (mutations (self w') = mutations (self w) ∧
          value_stack (self w') = value_stack (self w) ∧
          heap w' = heap w) as (?&?&?).
  { destruct r2 as [[]|e]; destruct Hrest as [_ ->]; by simpl. }
  split_and!; try done.
  intros instr Hi Harg. destruct r2 as [[]|e].
  - by destruct Hrest as [-> ->].
  - destruct Hr as (_&[Hnone|(instr'&Hi'&Hrel&Hnoarg)]); [congruence|].
    assert (instr' = instr) as -> by congruence.
    destruct (Harg Hrel) as [a Ha]. congruence.
Qed.

(** X4.  An observation that raises leaves [next_jump_location] as it was;
    [execution_start_index] is as it was too on the linear branch, and is
    the pointer on the jump-taken branch (where it is set before the table
    is read). *)
Theorem failed_observation_cursor frame w e w' :
  detect_chanages hasjrel hasjabs frame w = (Raise e, w') →
  next_jump_location (self w') = next_jump_location (self w) ∧
  execution_start_index (self w')
    = (if decide (next_jump_location (self w) = Some (f_lasti frame))
       then f_lasti frame else execution_start_index (self w)).
Proof.
  intros Hrun. apply detect_chanages_cases in Hrun
    as [[Hj Hre]|(Hj&r1&w1&Hscan&Hrest)].
  - rewrite decide_True by done.
    by apply rederive_jump_run in Hre as (_&_&_&_&_&->&_).
  - rewrite decide_False by done.
    apply scan_cursor in Hscan as (_&Hesi&Hnjl).
    destruct r1 as [[]|e1]; [|by destruct Hrest as [_ ->]].
    destruct Hrest as (r2&w2&Hre&Hrest).
    apply rederive_jump_run in Hre as (_&_&_&_&_&Hr).
    destruct r2 as [[]|e2]; [by destruct Hrest|].
    destruct Hrest as [_ ->]. by destruct Hr as [-> _].
Qed.

(** X5.  An offset of the scan range that the table does not hold stops
    the observation with a [KeyError]: the records of the instructions
    before it are in the log, nothing after it is scanned, and the cursor
    is where it was. *)
Theorem undecoded_offset_aborts_observation frame w pre i post w1 :
  next_jump_location (self w) ≠ Some (f_lasti frame) →
  range2 (execution_start_index (self w)) (f_lasti frame)
    = pre ++ i :: post →
  scan frame pre w = (Ok tt, w1) →
  instructions (self w) !! i = None →
  detect_chanages hasjrel hasjabs frame w = (Raise KeyError, w1) ∧
  execution_start_index (self w1) = execution_start_index (self w) ∧
  next_jump_location (self w1) = next_jump_location (self w).
Proof.
  intros Hj Hrange Hpre Hi.
  pose proof (scan_cursor _ _ _ _ _ Hpre) as (Hins&Hesi&Hnjl).
  split; [|done].
  rewrite (detect_chanages_linear _ _ _ _ Hj), Hrange.
  apply bind_Raise. rewrite scan_app, Hpre.
  apply scan_missing. by rewrite Hins.
Qed.


(** ** What the scan does not depend on *)

Lemma _deepcopy_from_frame_relocated frame k tbl (i : Z) (j : option Z) w :
  _deepcopy_from_frame frame k (relocated tbl i j w)
  = ((_deepcopy_from_frame frame k w).1,
     relocated tbl i j (_deepcopy_from_frame frame k w).2).
Proof.
  rewrite !_deepcopy_from_frame_resolve. simpl.
  destruct (hashable (heap w) k); [|done].
  by destruct (resolve frame k) as [x|].
Qed.

Lemma record_relocated frame instr tbl (i : Z) (j : option Z) w :
  record frame instr (relocated tbl i j w)
  = ((record frame instr w).1, relocated tbl i j (record frame instr w).2).
Proof.
  unfold record. destruct (is_store_name instr).
  - unfold bind at 1 3 5. rewrite _deepcopy_from_frame_relocated.
    destruct (_deepcopy_from_frame frame (argval instr) w) as [[v|e] w1];
      [|done].
    simpl. unfold bind. rewrite !_tos_run. simpl.
    by destruct (vs_tos (value_stack (self w1))).
  - destruct (is_store_attr instr); [|done].
    unfold bind at 1 5 9. rewrite !_tos_run. simpl.
    destruct (vs_tos (value_stack (self w))) as [t|e] eqn:Htos; [|done].
    unfold bind at 1 4 7. rewrite !_tos_run. simpl. rewrite Htos.
    unfold bind at 1 3 5. rewrite _deepcopy_from_frame_relocated.
    destruct (_deepcopy_from_frame frame t w) as [[v|e] w1]; [|done].
    simpl. unfold bind. rewrite !_tos1_run. simpl.
    by destruct (vs_tos1 (value_stack (self w1))).
Qed.

Lemma _log_changed_value_relocated frame instr tbl (i : Z) (j : option Z) w :
  _log_changed_value frame instr (relocated tbl i j w)
  = ((_log_changed_value frame instr w).1,
     relocated tbl i j (_log_changed_value frame instr w).2).
Proof.
  rewrite !_log_changed_value_record. unfold bind.
  rewrite record_relocated.
  destruct (record frame instr w) as [[[]|e] w1]; [|done]. simpl.
  unfold handle_instruction. simpl.
  by destruct (vs_handle_instruction instr (value_stack (self w1))).
Qed.

Lemma scan_relocated frame tbl (i : Z) (j : option Z) (offsets : list Z) :
  ∀ w, (∀ o, o ∈ offsets → tbl !! o = instructions (self w) !! o) →
    scan frame offsets (relocated tbl i j w)
    = ((scan frame offsets w).1, relocated tbl i j (scan frame offsets w).2).
Proof.
  induction offsets as [|o offsets IH]; intros w Hagree; [done|].
  pose proof (Hagree o ltac:(by left)) as Ho.
  destruct (instructions (self w) !! o) as [instr|] eqn:Hi.
  - rewrite (scan_step _ _ _ _ instr Hi).
    rewrite (scan_step _ _ _ (relocated tbl i j w) instr) by done.
    rewrite _log_changed_value_relocated.
    destruct (_log_changed_value frame instr w) as [[[]|e] w1] eqn:Hlog;
      [|done].
    simpl. apply IH. intros o' Ho'.
    apply _log_changed_value_cursor in Hlog as (->&_).
    apply Hagree. by right.
  - rewrite (scan_missing _ _ _ _ Hi).
    by rewrite (scan_missing _ _ _ (relocated tbl i j w)).
Qed.

Lemma rederive_jump_eq (last_i : Z) w :
  rederive_jump hasjrel hasjabs last_i w =
    match instructions (self w) !! last_i with
    | None => (Raise KeyError, w)
    | Some instr =>
        if bool_decide (opcode instr ∈ hasjrel) then
          match arg instr with
          | Some a =>
              (Ok tt, relocated (instructions (self w))
                        (execution_start_index (self w))
                        (Some (offset instr + 2 + a)) w)
          | None => (Raise TypeError, w)
          end
        else if bool_decide (opcode instr ∈ hasjabs) then
          (Ok tt, relocated (instructions (self w))
                    (execution_start_index (self w)) (arg instr) w)
        else
          (Ok tt, relocated (instructions (self w))
                    (execution_start_index (self w)) None w)
    end.
Proof.
  unfold rederive_jump, bind, instructions_getitem, bind, get_self. simpl.
  destruct (instructions (self w) !! last_i) as [instr|]; [|done]. simpl.
  unfold _record_jump_location_if_exists.
  destruct (bool_decide (opcode instr ∈ hasjrel)).
  - by destruct (arg instr).
  - by destruct (bool_decide (opcode instr ∈ hasjabs)).
Qed.

Lemma elem_of_range2 (start stop o : Z) :
  o ∈ range2 start stop → start ≤ o < stop.
Proof.
  unfold range2. intros Hin. apply list_elem_of_In, in_map_iff in Hin
    as (c&<-&Hc). apply in_seq in Hc.
  destruct (Z_le_gt_dec stop start) as [Hle|Hgt].
  - assert ((stop - start + 1) / 2 ≤ 0) as Hq.
    { apply Z.lt_succ_r. apply Z.div_lt_upper_bound; lia. }
    rewrite Z2Nat.nonpos in Hc by done. lia.
  - assert (2 * ((stop - start + 1) / 2) ≤ stop - start + 1) as Hq
      by (apply Z.mul_div_le; lia).
    assert (0 ≤ (stop - start + 1) / 2) by (apply Z.div_pos; lia). lia.
Qed.


Lemma detect_chanages_jump_eq frame w :
  next_jump_location (self w) = Some (f_lasti frame) →
  detect_chanages hasjrel hasjabs frame w
  = rederive_jump hasjrel hasjabs (f_lasti frame) (moved_to (f_lasti frame) w).
Proof.
  intros Hj.
  destruct (detect_chanages hasjrel hasjabs frame w) as [r w'] eqn:Hrun.
  symmetry. by apply (detect_chanages_jump_run _ _ _ _ _ _ Hj).
Qed.

Lemma detect_chanages_linear_eq frame w :
  next_jump_location (self w) ≠ Some (f_lasti frame) →
  detect_chanages hasjrel hasjabs frame w =
    match scan frame (range2 (execution_start_index (self w)) (f_lasti frame))
               w with
    | (Ok _, w1) =>
        match rederive_jump hasjrel hasjabs (f_lasti frame) w1 with
        | (Ok _, w2) => (Ok tt, moved_to (f_lasti frame) w2)
        | (Raise e, w2) => (Raise e, w2)
        end
    | (Raise e, w1) => (Raise e, w1)
    end.
Proof.
  intros Hj. rewrite (detect_chanages_linear _ _ _ _ Hj). unfold bind.
  destruct (scan _ _ w) as [[[]|e] w1]; [|done].
  by destruct (rederive_jump hasjrel hasjabs _ w1) as [[[]|e] w2].
Qed.

(** X6.  An observation reads the table at the pointer and at the offsets
    from the cursor up to the pointer, and nowhere else: on any other table
    that has the same entries there, it ends the same way and leaves the
    same log, stack, heap and cursor. *)
Theorem observation_reads_window_only frame w (tbl : gmap Z Instruction) :
  tbl !! f_lasti frame = instructions (self w) !! f_lasti frame →
  (∀ o, execution_start_index (self w) ≤ o < f_lasti frame →
        tbl !! o = instructions (self w) !! o) →
  detect_chanages hasjrel hasjabs frame
    (relocated tbl (execution_start_index (self w))
               (next_jump_location (self w)) w)
  = ((detect_chanages hasjrel hasjabs frame w).1,
     relocated tbl
       (execution_start_index
          (self (detect_chanages hasjrel hasjabs frame w).2))
       (next_jump_location
          (self (detect_chanages hasjrel hasjabs frame w).2))
       (detect_chanages hasjrel hasjabs frame w).2).
Proof.
  intros Hlast Hwin.
  destruct (decide (next_jump_location (self w) = Some (f_lasti frame)))
    as [Hj|Hj].
  - rewrite !detect_chanages_jump_eq by done.
    rewrite !rederive_jump_eq. simpl. rewrite Hlast.
    destruct (instructions (self w) !! f_lasti frame) as [instr|]; [|done].
    destruct (bool_decide (opcode instr ∈ hasjrel)).
    + by destruct (arg instr).
    + by destruct (bool_decide (opcode instr ∈ hasjabs)).
  - rewrite !detect_chanages_linear_eq by done. simpl.
    rewrite scan_relocated by (intros o Ho; by apply Hwin, elem_of_range2).
    destruct (scan frame _ w) as [r1 w1] eqn:Hscan.
    apply scan_cursor in Hscan as (Hins&Hesi&Hnjl). simpl.
    destruct r1 as [[]|e]; simpl; [|by rewrite Hesi, Hnjl].
    rewrite !rederive_jump_eq. simpl. rewrite Hlast, <-Hins, <-Hesi, <-Hnjl.
    destruct (instructions (self w1) !! f_lasti frame) as [instr|]; [|done].
    destruct (bool_decide (opcode instr ∈ hasjrel)).
    + by destruct (arg instr).
    + by destruct (bool_decide (opcode instr ∈ hasjabs)).
Qed.

(** X7.  Observations compose along straight-line code.  When an
    observation at [b] has completed and the instruction at [b] is no jump,
    observing the same frame at a later pointer [c] ends as a single
    observation at [c] would have, with the same log, stack and heap; and
    when it completes, with the very same logger. *)
Theorem observations_compose frame w (b c : Z) w1 :
  next_jump_location (self w) ≠ Some b →
  next_jump_location (self w) ≠ Some c →
  execution_start_index (self w) ≤ b → b ≤ c →
  Z.even (b - execution_start_index (self w)) = true →
  detect_chanages hasjrel hasjabs (at_offset b frame) w = (Ok tt, w1) →
  next_jump_location (self w1) = None →
  (detect_chanages hasjrel hasjabs (at_offset c frame) w1).1
    = (detect_chanages hasjrel hasjabs (at_offset c frame) w).1 ∧
  mutations (self (detect_chanages hasjrel hasjabs (at_offset c frame) w1).2)
    = mutations
        (self (detect_chanages hasjrel hasjabs (at_offset c frame) w).2) ∧
  value_stack
    (self (detect_chanages hasjrel hasjabs (at_offset c frame) w1).2)
    = value_stack
        (self (detect_chanages hasjrel hasjabs (at_offset c frame) w).2) ∧
  heap (detect_chanages hasjrel hasjabs (at_offset c frame) w1).2
    = heap (detect_chanages hasjrel hasjabs (at_offset c frame) w).2 ∧
  ((detect_chanages hasjrel hasjabs (at_offset c frame) w).1 = Ok tt →
   detect_chanages hasjrel hasjabs (at_offset c frame) w1
   = detect_chanages hasjrel hasjabs (at_offset c frame) w).
Proof.
  intros Hjb Hjc Hab Hbc Heven Hrun Hnjl1.
  rewrite (detect_chanages_linear_eq (at_offset b frame)) in Hrun by done.
  simpl in Hrun.
  destruct (scan (at_offset b frame) _ w) as [[[]|e] wa] eqn:Hscan; [|done].
  change (scan (at_offset b frame)) with (scan (at_offset c frame)) in Hscan.
  pose proof (scan_cursor _ _ _ _ _ Hscan) as (Hins&Hesi&Hnjl).
  rewrite rederive_jump_eq in Hrun.
  assert (w1 = relocated (instructions (self wa)) b None wa) as ->.
  { destruct (instructions (self wa) !! b) as [instr|]; [|done].
    destruct (bool_decide (opcode instr ∈ hasjrel)).
    - destruct (arg instr); [|done]. injection Hrun as <-. done.
    - destruct (bool_decide (opcode instr ∈ hasjabs));
        injection Hrun as <-; simpl in Hnjl1; by rewrite ?Hnjl1. }
  clear Hrun Hnjl1.
  rewrite (detect_chanages_linear_eq _ (relocated _ _ _ _)) by done.
  rewrite (detect_chanages_linear_eq _ w) by done. simpl.
  rewrite (range2_app (execution_start_index (self w)) b c), scan_app, Hscan
    by done.
  rewrite scan_relocated by done.
  destruct (scan (at_offset c frame) (range2 b c) wa) as [r2 w2] eqn:Hscan2.
  apply scan_cursor in Hscan2 as (Hins2&_).
  destruct r2 as [[]|e]; [|done]. simpl.
  rewrite !rederive_jump_eq. simpl. rewrite <-Hins2.
  destruct (instructions (self w2) !! c) as [instr|]; [|done].
  destruct (bool_decide (opcode instr ∈ hasjrel)).
  - by destruct (arg instr).
  - by destruct (bool_decide (opcode instr ∈ hasjabs)).
Qed.


Lemma detect_chanages_Ok_jump frame w w' :
  detect_chanages hasjrel hasjabs frame w = (Ok tt, w') →
  ∃ instr,
    instructions (self w) !! f_lasti frame = Some instr ∧
    next_jump_location (self w') =
      if bool_decide (opcode instr ∈ hasjrel)
      then (λ a, offset instr + 2 + a) <$> arg instr
      else if bool_decide (opcode instr ∈ hasjabs) then arg instr
      else None.
Proof.
  intros Hrun. apply detect_chanages_cases in Hrun
    as [[_ Hre]|(_&r1&w1&Hscan&Hrest)].
  - by apply rederive_jump_run in Hre as (_&_&_&_&_&Hr).
  - apply scan_cursor in Hscan as (Hins&_).
    destruct r1 as [[]|e]; [|by destruct Hrest].
    destruct Hrest as (r2&w2&Hre&Hrest).
    apply rederive_jump_run in Hre as (_&_&_&_&_&Hr).
    destruct r2 as [[]|e]; [|by destruct Hrest].
    destruct Hrest as [_ ->]. destruct Hr as (instr&Hi&Hr).
    exists instr. by rewrite <-Hins.
Qed.

(** X8.  A recorded jump is followed.  When an observation has completed
    at a jump instruction, the next observation, made at the target of that
    jump, appends nothing, leaves stack and heap as they are and moves the
    cursor to the target: the instructions in between are never scanned. *)
Theorem recorded_jump_is_followed frame1 frame2 w w1 jinstr :
  table_wf (instructions (self w)) →
  detect_chanages hasjrel hasjabs frame1 w = (Ok tt, w1) →
  instructions (self w) !! f_lasti frame1 = Some jinstr →
  (opcode jinstr ∈ hasjrel ∧
   (∃ D, arg jinstr = Some D ∧ f_lasti frame2 = f_lasti frame1 + 2 + D)) ∨
  ((opcode jinstr ∉ hasjrel) ∧ opcode jinstr ∈ hasjabs ∧
   arg jinstr = Some (f_lasti frame2)) →
  mutations (self (detect_chanages hasjrel hasjabs frame2 w1).2)
    = mutations (self w1) ∧
  value_stack (self (detect_chanages hasjrel hasjabs frame2 w1).2)
    = value_stack (self w1) ∧
  heap (detect_chanages hasjrel hasjabs frame2 w1).2 = heap w1 ∧
  execution_start_index (self (detect_chanages hasjrel hasjabs frame2 w1).2)
    = f_lasti frame2.
Proof.
  intros Hwf Hrun Hi Hjump.
  assert (next_jump_location (self w1) = Some (f_lasti frame2)) as Hj.
  { apply detect_chanages_Ok_jump in Hrun as (instr&Hi'&->).
    assert (instr = jinstr) as -> by congruence.
    rewrite (Hwf _ _ Hi).
    destruct Hjump as [(Hrel&D&->&->)|(Hrel&Habs&->)].
    - by rewrite bool_decide_eq_true_2.
    - by rewrite bool_decide_eq_false_2, bool_decide_eq_true_2. }
  destruct (detect_chanages hasjrel hasjabs frame2 w1) as [r w2] eqn:Hrun2.
  apply (detect_chanages_jump_run _ _ _ _ _ _ Hj) in Hrun2. simpl.
  by apply rederive_jump_run in Hrun2 as (_&->&->&->&->&_).
Qed.


Lemma foldl_insert_lookup (code : list Instruction) :
  ∀ (tbl : gmap Z Instruction) (o : Z),
    foldl (λ m instr, <[offset instr := instr]> m) tbl code !! o
    = match last (filter (λ instr, offset instr = o) code) with
      | Some instr => Some instr
      | None => tbl !! o
      end.
Proof.
  induction code as [|i code IH]; intros tbl o; [done|].
  simpl. rewrite IH, filter_cons.
  destruct (decide (offset i = o)) as [Heq|Hne].
  - rewrite last_cons. destruct (last (filter _ code)); [done|].
    by rewrite Heq, lookup_insert_eq.
  - destruct (last (filter _ code)); [done|]. by rewrite lookup_insert_ne.
Qed.

Lemma last_filter_offset (code : list Instruction) (o : Z) :
  NoDup (offset <$> code) →
  ∀ instr, last (filter (λ instr, offset instr = o) code) = Some instr
           ↔ instr ∈ code ∧ offset instr = o.
Proof.
  induction code as [|i code IH]; intros Hnd instr.
  - split; [done|]. by intros [?%elem_of_nil _].
  - rewrite fmap_cons in Hnd. apply NoDup_cons in Hnd as [Hi Hnd].
    specialize (IH Hnd). rewrite filter_cons.
    destruct (decide (offset i = o)) as [Heq|Hne].
    + rewrite last_cons.
      destruct (last (filter _ code)) as [i'|] eqn:Hlast.
      * exfalso. apply Hi. apply list_elem_of_fmap. exists i'.
        destruct (proj1 (IH i') eq_refl) as [? ?]. split; [congruence|done].
      * split.
        -- intros [= <-]. split; [by left|done].
        -- intros [[->|Hin]%elem_of_cons Ho]; [done|].
           discriminate (proj2 (IH instr) (conj Hin Ho)).
    + rewrite IH. split.
      * intros [? ?]. split; [by right|done].
      * by intros [[->|Hin]%elem_of_cons Ho].
Qed.

(** X10.  The table built by [__init__] maps every offset of the code to
    the instruction at that offset and holds nothing else, when no two
    instructions of the code share an offset. *)
Theorem build_instructions_lookup (code : list Instruction) (o : Z) instr :
  NoDup (offset <$> code) →
  build_instructions code !! o = Some instr ↔ instr ∈ code ∧ offset instr = o.
Proof.
  intros Hnd. unfold build_instructions.
  rewrite foldl_insert_lookup, lookup_empty.
  rewrite <-(last_filter_offset code o Hnd instr).
  by destruct (last (filter _ code)).
Qed.

(** X11.  The table never changes: at any point of a run it is the table
    [__init__] built from the code of the frame the logger was created for,
    whatever frames were observed since and however the observations
    ended. *)
Theorem reachable_table_is_initial frame0 w :
  reachable hasjrel hasjabs frame0 w →
  instructions (self w) = build_instructions (f_code frame0).
Proof.
  induction 1 as [h|frame w _ IH|w h _ IH]; simpl.
  - done.
  - by rewrite detect_chanages_instructions.
  - done.
Qed.

(** X12.  A store met on a stack with no top entry raises and appends
    nothing, and the instruction is not handed to the simulator; at a
    [STORE_ATTR] the stack's own exception leaves the call before anything
    is read or copied. *)
Theorem store_without_stack_entry frame instr w e :
  is_store instr = true →
  vs_tos (value_stack (self w)) = Raise e →
  (∃ e', (_log_changed_value frame instr w).1 = Raise e') ∧
  mutations (self (_log_changed_value frame instr w).2) = mutations (self w) ∧
  value_stack (self (_log_changed_value frame instr w).2)
    = value_stack (self w) ∧
  (is_store_name instr = false →
   _log_changed_value frame instr w = (Raise e, w)).
Proof.
  intros Hstore Htos.
  assert (∃ e' w1, record frame instr w = (Raise e', w1) ∧
            self w1 = self w ∧
            (is_store_name instr = false → e' = e ∧ w1 = w))
    as (e'&w1&Hrec&Hself&Hattr).
  { unfold record, is_store in *.
    destruct (is_store_name instr) eqn:Hsn.
    - destruct (_deepcopy_from_frame frame (argval instr) w)
        as [[v|e1] w1] eqn:Hd.
      + exists e, w1. rewrite (bind_Ok _ _ _ _ _ Hd).
        apply _deepcopy_from_frame_Ok in Hd as [Hself _].
        split; [|done]. apply bind_Raise. by rewrite _tos_run, Hself, Htos.
      + exists e1, w1. rewrite (bind_Raise _ _ _ _ _ Hd).
        by apply _deepcopy_from_frame_Raise in Hd as ->.
    - simpl in Hstore. rewrite Hstore. exists e, w.
      split; [|done]. apply bind_Raise. by rewrite _tos_run, Htos. }
  rewrite _log_changed_value_record, (bind_Raise _ _ _ _ _ Hrec). simpl.
  rewrite Hself. split_and!; try done; [by eauto|].
  intros Hsn. by destruct (Hattr Hsn) as [-> ->].
Qed.

(** X13.  The record is made before the simulator runs, so it outlives a
    failure of the simulator: when [handle_instruction] raises at a store
    whose record could be made, the exception leaves
    [_log_changed_value] with the record at the end of the log. *)
Theorem simulator_error_keeps_record frame instr w x t e (s' : VS)
    (D : nat → Prop) :
  is_store_name instr = true →
  resolve frame (argval instr) = Some x →
  copyable_region (heap w) D → val_ok D x →
  vs_tos (value_stack (self w)) = Ok t →
  vs_handle_instruction instr (value_stack (self w)) = (Raise e, s') →
  ∃ v',
    (_log_changed_value frame instr w).1 = Raise e ∧
    mutations (self (_log_changed_value frame instr w).2)
      = mutations (self w) ++ [mkMutation (argval instr) v' t] ∧
    value_stack (self (_log_changed_value frame instr w).2) = s'.
Proof.
  intros Hsn Hres Hcopy Hx Htos Hh.
  destruct (deepcopy_total _ _ _ Hcopy Hx) as (v'&h'&Hdc). exists v'.
  rewrite _log_changed_value_record.
  rewrite (bind_Ok _ _ _ _ _
             (record_store_name _ _ _ _ _ _ _ Hsn Hres Htos Hdc)).
  by erewrite handle_instruction_run by done.
Qed.

(** X14.  A logger just created starts four bytes past the creating
    frame's pointer, with no jump recorded: an observation at a pointer not
    beyond that start scans nothing, so the two instructions of the call
    that created the logger are never taken for stores of the program. *)
Theorem first_observation_near_creation frame0 frame (h : gmap nat Obj) :
  f_lasti frame ≤ f_lasti frame0 + 4 →
  mutations
    (self (detect_chanages hasjrel hasjabs frame
             (mkWorld (create_logger frame0) h)).2) = [] ∧
  value_stack
    (self (detect_chanages hasjrel hasjabs frame
             (mkWorld (create_logger frame0) h)).2) = vs_new ∧
  heap (detect_chanages hasjrel hasjabs frame
          (mkWorld (create_logger frame0) h)).2 = h.
Proof.
  intros Hle.
  rewrite detect_chanages_linear_eq by done. simpl.
  rewrite range2_empty by done. simpl.
  rewrite rederive_jump_eq. simpl.
  destruct (build_instructions (f_code frame0) !! f_lasti frame)
    as [instr|]; [|done].
  destruct (bool_decide (opcode instr ∈ hasjrel)).
  - by destruct (arg instr).
  - by destruct (bool_decide (opcode instr ∈ hasjabs)).
Qed.


Lemma observe_again frame (wx : @World VS) (jloc : option Z) instr :
  instructions (self wx) !! f_lasti frame = Some instr →
  (if bool_decide (opcode instr ∈ hasjrel)
   then ∃ a, arg instr = Some a ∧ jloc = Some (offset instr + 2 + a)
   else jloc = if bool_decide (opcode instr ∈ hasjabs) then arg instr
               else None) →
  detect_chanages hasjrel hasjabs frame
    (relocated (instructions (self wx)) (f_lasti frame) jloc wx)
  = (Ok tt, relocated (instructions (self wx)) (f_lasti frame) jloc wx).
Proof.
  intros Hi Hjloc.
  destruct (decide (jloc = Some (f_lasti frame))) as [Hj|Hj].
  - rewrite detect_chanages_jump_eq by done.
    rewrite rederive_jump_eq. simpl. rewrite Hi.
    destruct (bool_decide (opcode instr ∈ hasjrel)).
    + by destruct Hjloc as (a&->&->).
    + rewrite Hjloc. by destruct (bool_decide (opcode instr ∈ hasjabs)).
  - rewrite detect_chanages_linear_eq by done. simpl.
    rewrite range2_empty by done. simpl.
    rewrite rederive_jump_eq. simpl. rewrite Hi.
    destruct (bool_decide (opcode instr ∈ hasjrel)).
    + by destruct Hjloc as (a&->&->).
    + rewrite Hjloc. by destruct (bool_decide (opcode instr ∈ hasjabs)).
Qed.

(** X15.  Observing twice is observing once: after an observation that
    completed, another observation at the same pointer returns and changes
    nothing at all. *)
Theorem observation_is_idempotent frame1 frame2 w w1 :
  f_lasti frame2 = f_lasti frame1 →
  detect_chanages hasjrel hasjabs frame1 w = (Ok tt, w1) →
  detect_chanages hasjrel hasjabs frame2 w1 = (Ok tt, w1).
Proof.
  intros Hsame Hrun.
  assert (∃ wx jloc instr,
            w1 = relocated (instructions (self wx)) (f_lasti frame2) jloc wx ∧
            instructions (self wx) !! f_lasti frame2 = Some instr ∧
            (if bool_decide (opcode instr ∈ hasjrel)
             then ∃ a, arg instr = Some a ∧ jloc = Some (offset instr + 2 + a)
             else jloc = if bool_decide (opcode instr ∈ hasjabs)
                         then arg instr else None))
    as (wx&jloc&instr&->&Hi&Hjloc).
  { rewrite Hsame.
    destruct (decide (next_jump_location (self w) = Some (f_lasti frame1)))
      as [Hj|Hj].
    - rewrite detect_chanages_jump_eq, rederive_jump_eq in Hrun by done.
      simpl in Hrun.
      destruct (instructions (self w) !! f_lasti frame1) as [instr|] eqn:Hi;
        [|done].
      exists w. destruct (bool_decide (opcode instr ∈ hasjrel)) eqn:Hrel.
      + destruct (arg instr) as [a|] eqn:Ha; [|done]. injection Hrun as <-.
        eexists _, instr. rewrite Hrel. split; [done|]. split; [done|].
        by exists a.
      + destruct (bool_decide (opcode instr ∈ hasjabs)) eqn:Habs;
          injection Hrun as <-; eexists _, instr; by rewrite Hrel, Habs.
    - rewrite detect_chanages_linear_eq in Hrun by done.
      destruct (scan frame1 _ w) as [[[]|e] wa] eqn:Hscan; [|done].
      rewrite rederive_jump_eq in Hrun.
      destruct (instructions (self wa) !! f_lasti frame1) as [instr|] eqn:Hi;
        [|done].
      exists wa. destruct (bool_decide (opcode instr ∈ hasjrel)) eqn:Hrel.
      + destruct (arg instr) as [a|] eqn:Ha; [|done]. injection Hrun as <-.
        eexists _, instr. rewrite Hrel. split; [done|]. split; [done|].
        by exists a.
      + destruct (bool_decide (opcode instr ∈ hasjabs)) eqn:Habs;
          injection Hrun as <-; eexists _, instr; by rewrite Hrel, Habs. }
  by apply (observe_again _ _ _ instr).
Qed.

End observation_facts.

(* ===================================================================== *)
(** * Worked observations *)
(* ===================================================================== *)

Example scenario_first_observation :
  observe (scenario_frame 4) scenario_world = (Ok tt, scenario_world_at_4) ∧
  mutations (self scenario_world_at_4)
    = [mkMutation (VStr "x") (VInt 1) (VInt 1);
       mkMutation (VStr "y") (VInt 2) (VInt 2)] ∧
  next_jump_location (self scenario_world_at_4) = Some 8.
Proof. by vm_compute. Qed.

Example scenario_second_observation :
  (observe (scenario_frame 8) scenario_world_at_4).1 = Ok tt ∧
  mutations (self (observe (scenario_frame 8) scenario_world_at_4).2)
    = mutations (self scenario_world_at_4) ∧
  next_jump_location (self (observe (scenario_frame 8) scenario_world_at_4).2)
    = Some 14.
Proof. by vm_compute. Qed.

(** A name bound in two scopes resolves to the local binding. *)
Example store_name_shadowing :
  mutations (self (log_value
                     (mkFrame 2 scenario_code {[ "x" := VInt 1 ]}%string
                              {[ "x" := VInt 2 ]}%string ∅)
                     (mkInstruction "STORE_FAST" 125 (Some 0) (VStr "x") 0)
                     scenario_world).2)
  = [mkMutation (VStr "x") (VInt 1) (VInt 1)].
Proof. by vm_compute. Qed.

Lemma jump_taken_appends_nothing_witness :
  mutations (self (observe (scenario_frame 8) scenario_world_at_4).2)
    = mutations (self scenario_world_at_4) ∧
  heap (observe (scenario_frame 8) scenario_world_at_4).2
    = heap scenario_world_at_4 ∧
  execution_start_index (self (observe (scenario_frame 8) scenario_world_at_4).2)
    = 8 ∧
  (∀ instr,
     instructions (self scenario_world_at_4) !! 8 = Some instr →
     (opcode instr ∈ hasjrel38 → is_Some (arg instr)) →
     (observe (scenario_frame 8) scenario_world_at_4).1 = Ok tt).
Proof.
  apply (jump_taken_appends_nothing hasjrel38 hasjabs38 (scenario_frame 8)
           scenario_world_at_4).
  vm_compute. reflexivity.
Defined.

Lemma start_index_is_last_i_witness :
  execution_start_index (self scenario_world_at_4) = 4.
Proof.
  apply (start_index_is_last_i hasjrel38 hasjabs38 (scenario_frame 4)
           scenario_world scenario_world_at_4).
  vm_compute. reflexivity.
Defined.

Lemma next_jump_location_rederived_witness :
  ∃ instr,
    instructions (self scenario_world) !! 4 = Some instr ∧
    (opcode instr ∈ hasjrel38 → ∀ D, arg instr = Some D →
       next_jump_location (self scenario_world_at_4) = Some (4 + 2 + D)) ∧
    (opcode instr ∉ hasjrel38 → opcode instr ∈ hasjabs38 →
       ∀ A, arg instr = Some A →
         next_jump_location (self scenario_world_at_4) = Some A) ∧
    (opcode instr ∉ hasjrel38 → opcode instr ∉ hasjabs38 →
       next_jump_location (self scenario_world_at_4) = None).
Proof.
  apply (next_jump_location_rederived hasjrel38 hasjabs38 (scenario_frame 4)
           scenario_world scenario_world_at_4).
  - apply build_instructions_wf.
  - vm_compute. reflexivity.
Defined.

Lemma jump_taken_stack_untouched_witness :
  value_stack (self (observe (scenario_frame 8) scenario_world_at_4).2)
    = value_stack (self scenario_world_at_4) ∧
  observe (scenario_frame 8) scenario_world_at_4
    = @detect_chanages (list Value) (list_stack (λ _ _, Raise IndexError))
        hasjrel38 hasjabs38 (scenario_frame 8) scenario_world_at_4.
Proof.
  apply (jump_taken_stack_untouched example_stack
           (list_stack (λ _ _, Raise IndexError)) hasjrel38 hasjabs38
           (scenario_frame 8) scenario_world_at_4).
  vm_compute. reflexivity.
Defined.

(** The scenario stores integers: no object is reached. *)
Lemma no_object_copyable (h : gmap nat Obj) : copyable_region h (λ _, False).
Proof. by intros l []. Qed.


Lemma unresolved_store_appends_nothing_witness :
  log_value unbound_frame (mkInstruction "STORE_NAME" 90 (Some 0) (VStr "x") 0)
            scenario_world
    = (Raise KeyError, scenario_world) ∧
  mutations (self (log_value unbound_frame
                     (mkInstruction "STORE_NAME" 90 (Some 0) (VStr "x") 0)
                     scenario_world).2)
    = mutations (self scenario_world).
Proof.
  apply (unresolved_store_appends_nothing unbound_frame
           (mkInstruction "STORE_NAME" 90 (Some 0) (VStr "x") 0)
           scenario_world).
  exists "x"%string. split; [by vm_compute|]. left. by vm_compute.
Defined.


Lemma attr_heap_copyable :
  copyable_region (heap attr_world) (whole (heap attr_world)).
Proof.
  intros l Hl. apply elem_of_dom in Hl as [o Hl]. exists o. split; [done|].
  simpl in Hl. apply lookup_singleton_Some in Hl as [_ <-].
  by repeat constructor.
Qed.

Lemma store_attr_mutation_witness :
  ∃ v',
    mutations (self (log_value attr_frame attr_instr attr_world).2)
      = mutations (self attr_world) ++ [mkMutation (VStr "obj") v' (VInt 7)] ∧
    deepcopy (heap attr_world) (VRef 0%nat)
      = (Ok v', heap (log_value attr_frame attr_instr attr_world).2) ∧
    is_deepcopy (heap attr_world) (VRef 0%nat)
      (heap (log_value attr_frame attr_instr attr_world).2) v'.
Proof.
  apply (store_attr_mutation attr_frame attr_instr attr_world
           "obj" (VRef 0%nat) (VInt 7) (whole (heap attr_world))).
  - by vm_compute.
  - by vm_compute.
  - reflexivity.
  - reflexivity.
  - by vm_compute.
  - apply attr_heap_copyable.
  - simpl. apply elem_of_dom. by eexists.
Defined.

(** An object that does not hash cannot be looked up in the scopes. *)
Example unhashable_name_raises :
  log_value attr_frame attr_instr unhashable_world
  = (Raise TypeError, unhashable_world).
Proof. by vm_compute. Qed.

(** C1, as stated, fails: at [obj.value = 7] the top of the stack is the
    name [obj], and the source of the record is the entry below it. *)
Lemma store_attr_source_is_not_tos :
  vs_tos (value_stack (self attr_world)) = Ok (VStr "obj") ∧
  mutations (self (log_value attr_frame attr_instr attr_world).2)
    = [mkMutation (VStr "obj") (VRef 1%nat) (VInt 7)] ∧
  ¬ (∀ frame instr (w : @World (list Value)) t m,
       is_store_attr instr = true →
       vs_tos (value_stack (self w)) = Ok t →
       mutations (self (log_value frame instr w).2)
         = mutations (self w) ++ [m] →
       target m = t ∧ source m = t).
Proof.
  split; [reflexivity|]. split; [by vm_compute|]. intros Hclaim.
  destruct (Hclaim attr_frame attr_instr attr_world (VStr "obj")
              (mkMutation (VStr "obj") (VRef 1%nat) (VInt 7)))
    as [_ Hsrc]; [by vm_compute|reflexivity|by vm_compute|].
  discriminate Hsrc.
Qed.

(** C2, as stated, fails: with [x] bound nowhere the observation at offset
    4 raises at the store of [x]; the store of [y] after it, whose name
    resolves, is not recorded, and the cursor has not moved. *)
Lemma unresolved_store_is_fatal :
  observe unbound_frame scenario_world = (Raise KeyError, scenario_world) ∧
  mutations (self (observe unbound_frame scenario_world).2) = [] ∧
  ¬ (∀ frame (w : @World (list Value)) i instr n,
       next_jump_location (self w) ≠ Some (f_lasti frame) →
       i ∈ range2 (execution_start_index (self w)) (f_lasti frame) →
       instructions (self w) !! i = Some instr →
       is_store_name instr = true → argval instr = VStr n →
       absent frame n →
       (observe frame w).1 = Ok tt).
Proof.
  split; [by vm_compute|]. split; [by vm_compute|]. intros Hclaim.
  specialize (Hclaim unbound_frame scenario_world 0
                (mkInstruction "STORE_NAME" 90 (Some 0) (VStr "x") 0) "x"%string).
  assert ((observe unbound_frame scenario_world).1 = Raise KeyError) as Hrun
    by by vm_compute.
  rewrite Hrun in Hclaim. discriminate Hclaim; try by vm_compute.
  change (range2 _ _) with [0; 2]. by left.
Qed.

Lemma unresolved_store_aborts_observation_witness :
  observe unbound_frame scenario_world = (Raise KeyError, scenario_world) ∧
  execution_start_index (self scenario_world)
    = execution_start_index (self scenario_world) ∧
  next_jump_location (self scenario_world)
    = next_jump_location (self scenario_world).
Proof.
  apply (unresolved_store_aborts_observation hasjrel38 hasjabs38 unbound_frame
           scenario_world [] 0 [2]
           (mkInstruction "STORE_NAME" 90 (Some 0) (VStr "x") 0)
           scenario_world).
  - by vm_compute.
  - by vm_compute.
  - reflexivity.
  - by vm_compute.
  - exists "x"%string. split; [by vm_compute|]. left. by vm_compute.
Defined.



Example scenario_store_count :
  length (filter (λ i, is_store i) scenario_code) = 2%nat.
Proof. by vm_compute. Qed.



(** The same run, read off: the live list has grown, the record has not. *)
Example snapshot_after_append :
  let h' := heap (log_value list_frame list_instr list_world).2 in
  mutations (self (log_value list_frame list_instr list_world).2)
    = [mkMutation (VStr "xs") (VRef 1%nat) (VRef 0%nat)] ∧
  read 1 h' (VRef 1%nat) = TList [TInt 1; TInt 2] ∧
  read 1 (store_all append_3 h') (VRef 0%nat)
    = TList [TInt 1; TInt 2; TInt 3] ∧
  read 1 (store_all append_3 h') (VRef 1%nat) = TList [TInt 1; TInt 2].
Proof. by vm_compute. Qed.

(** [deepcopy] on a list that contains itself: the copy contains itself,
    and not the original. *)
Example deepcopy_cyclic_list :
  deepcopy {[ 0%nat := OList [VInt 1; VRef 0%nat] ]} (VRef 0%nat)
  = (Ok (VRef 1%nat),
     {[ 0%nat := OList [VInt 1; VRef 0%nat];
        1%nat := OList [VInt 1; VRef 1%nat] ]}).
Proof. by vm_compute. Qed.

(** [deepcopy] on a list that holds a function: the list is copied, the
    function is shared by the list and its copy. *)
Example deepcopy_list_of_function :
  deepcopy {[ 0%nat := OList [VRef 1%nat];
              1%nat := OShared "function" [] [] ]} (VRef 0%nat)
  = (Ok (VRef 2%nat),
     {[ 0%nat := OList [VRef 1%nat];
        1%nat := OShared "function" [] [];
        2%nat := OList [VRef 1%nat] ]}).
Proof. by vm_compute. Qed.

(** [deepcopy] on a list that holds a module: [TypeError], and nothing is
    kept of the copy that was begun. *)
Example deepcopy_list_of_module :
  deepcopy {[ 0%nat := OList [VInt 1; VRef 1%nat];
              1%nat := OOpaque "module" ]} (VRef 0%nat)
  = (Raise TypeError,
     {[ 0%nat := OList [VInt 1; VRef 1%nat];
        1%nat := OOpaque "module" ]}).
Proof. by vm_compute. Qed.

Lemma observation_behind_cursor_witness :
  mutations (self (observe (scenario_frame 0) scenario_world_at_4).2)
    = mutations (self scenario_world_at_4) ∧
  value_stack (self (observe (scenario_frame 0) scenario_world_at_4).2)
    = value_stack (self scenario_world_at_4) ∧
  heap (observe (scenario_frame 0) scenario_world_at_4).2
    = heap scenario_world_at_4 ∧
  (∀ instr,
     instructions (self scenario_world_at_4) !! 0 = Some instr →
     (opcode instr ∈ hasjrel38 → is_Some (arg instr)) →
     (observe (scenario_frame 0) scenario_world_at_4).1 = Ok tt ∧
     execution_start_index
       (self (observe (scenario_frame 0) scenario_world_at_4).2) = 0).
Proof.
  apply (observation_behind_cursor hasjrel38 hasjabs38 (scenario_frame 0)
           scenario_world_at_4).
  - by vm_compute.
  - by vm_compute.
Defined.

Lemma failed_observation_cursor_witness :
  next_jump_location (self scenario_world)
    = next_jump_location (self scenario_world) ∧
  execution_start_index (self scenario_world)
    = (if decide (next_jump_location (self scenario_world)
                  = Some (f_lasti unbound_frame))
       then f_lasti unbound_frame
       else execution_start_index (self scenario_world)).
Proof.
  apply (failed_observation_cursor hasjrel38 hasjabs38 unbound_frame
           scenario_world KeyError scenario_world).
  by vm_compute.
Defined.

Lemma undecoded_offset_aborts_observation_witness :
  observe (scenario_frame 4) misaligned_world
    = (Raise KeyError, misaligned_world) ∧
  execution_start_index (self misaligned_world)
    = execution_start_index (self misaligned_world) ∧
  next_jump_location (self misaligned_world)
    = next_jump_location (self misaligned_world).
Proof.
  apply (undecoded_offset_aborts_observation hasjrel38 hasjabs38
           (scenario_frame 4) misaligned_world [] 1 [3] misaligned_world).
  - by vm_compute.
  - by vm_compute.
  - reflexivity.
  - by vm_compute.
Defined.

Lemma observation_reads_window_only_witness :
  observe (scenario_frame 4)
    (relocated (build_instructions (take 3 scenario_code))
               (execution_start_index (self scenario_world))
               (next_jump_location (self scenario_world)) scenario_world)
  = ((observe (scenario_frame 4) scenario_world).1,
     relocated (build_instructions (take 3 scenario_code))
       (execution_start_index
          (self (observe (scenario_frame 4) scenario_world).2))
       (next_jump_location
          (self (observe (scenario_frame 4) scenario_world).2))
       (observe (scenario_frame 4) scenario_world).2).
Proof.
  apply (observation_reads_window_only hasjrel38 hasjabs38 (scenario_frame 4)
           scenario_world (build_instructions (take 3 scenario_code))).
  - by vm_compute.
  - intros o Ho. simpl in Ho.
    assert (o = 0 ∨ o = 1 ∨ o = 2 ∨ o = 3) as [-> | [-> | [-> | ->]]] by lia;
      by vm_compute.
Defined.

Lemma observations_compose_witness :
  (observe (at_offset 4 (scenario_frame 0))
     (observe (at_offset 2 (scenario_frame 0)) scenario_world).2).1
    = (observe (at_offset 4 (scenario_frame 0)) scenario_world).1 ∧
  mutations
    (self (observe (at_offset 4 (scenario_frame 0))
             (observe (at_offset 2 (scenario_frame 0)) scenario_world).2).2)
    = mutations
        (self (observe (at_offset 4 (scenario_frame 0)) scenario_world).2) ∧
  value_stack
    (self (observe (at_offset 4 (scenario_frame 0))
             (observe (at_offset 2 (scenario_frame 0)) scenario_world).2).2)
    = value_stack
        (self (observe (at_offset 4 (scenario_frame 0)) scenario_world).2) ∧
  heap (observe (at_offset 4 (scenario_frame 0))
          (observe (at_offset 2 (scenario_frame 0)) scenario_world).2).2
    = heap (observe (at_offset 4 (scenario_frame 0)) scenario_world).2 ∧
  ((observe (at_offset 4 (scenario_frame 0)) scenario_world).1 = Ok tt →
   observe (at_offset 4 (scenario_frame 0))
     (observe (at_offset 2 (scenario_frame 0)) scenario_world).2
   = observe (at_offset 4 (scenario_frame 0)) scenario_world).
Proof.
  apply (observations_compose hasjrel38 hasjabs38 (scenario_frame 0)
           scenario_world 2 4
           (observe (at_offset 2 (scenario_frame 0)) scenario_world).2).
  - by vm_compute.
  - by vm_compute.
  - by vm_compute.
  - by vm_compute.
  - by vm_compute.
  - by vm_compute.
  - by vm_compute.
Defined.

Lemma recorded_jump_is_followed_witness :
  mutations (self (observe (scenario_frame 8) scenario_world_at_4).2)
    = mutations (self scenario_world_at_4) ∧
  value_stack (self (observe (scenario_frame 8) scenario_world_at_4).2)
    = value_stack (self scenario_world_at_4) ∧
  heap (observe (scenario_frame 8) scenario_world_at_4).2
    = heap scenario_world_at_4 ∧
  execution_start_index
    (self (observe (scenario_frame 8) scenario_world_at_4).2) = 8.
Proof.
  apply (recorded_jump_is_followed hasjrel38 hasjabs38 (scenario_frame 4)
           (scenario_frame 8) scenario_world scenario_world_at_4
           (mkInstruction "JUMP_ABSOLUTE" 113 (Some 8) (VInt 8) 4)).
  - apply build_instructions_wf.
  - by vm_compute.
  - by vm_compute.
  - right. split; [|split].
    + compute_done.
    + compute_done.
    + reflexivity.
Defined.

Lemma build_instructions_lookup_witness :
  build_instructions scenario_code !! 4
    = Some (mkInstruction "JUMP_ABSOLUTE" 113 (Some 8) (VInt 8) 4)
  ↔ mkInstruction "JUMP_ABSOLUTE" 113 (Some 8) (VInt 8) 4 ∈ scenario_code ∧
    offset (mkInstruction "JUMP_ABSOLUTE" 113 (Some 8) (VInt 8) 4) = 4.
Proof.
  apply (build_instructions_lookup scenario_code 4
           (mkInstruction "JUMP_ABSOLUTE" 113 (Some 8) (VInt 8) 4)).
  compute_done.
Defined.

Lemma reachable_table_is_initial_witness :
  instructions
    (self (observe (scenario_frame 4)
             (mkWorld (create_logger creating_frame) ∅)).2)
  = build_instructions (f_code creating_frame).
Proof.
  apply (reachable_table_is_initial hasjrel38 hasjabs38 creating_frame
           (observe (scenario_frame 4)
              (mkWorld (create_logger creating_frame) ∅)).2).
  apply reachable_observe, reachable_init.
Defined.

Lemma store_without_stack_entry_witness :
  (∃ e', (log_value (scenario_frame 4)
            (mkInstruction "STORE_NAME" 90 (Some 0) (VStr "x") 0)
            empty_stack_world).1 = Raise e') ∧
  mutations (self (log_value (scenario_frame 4)
                     (mkInstruction "STORE_NAME" 90 (Some 0) (VStr "x") 0)
                     empty_stack_world).2)
    = mutations (self empty_stack_world) ∧
  value_stack (self (log_value (scenario_frame 4)
                       (mkInstruction "STORE_NAME" 90 (Some 0) (VStr "x") 0)
                       empty_stack_world).2)
    = value_stack (self empty_stack_world) ∧
  (is_store_name (mkInstruction "STORE_NAME" 90 (Some 0) (VStr "x") 0) = false →
   log_value (scenario_frame 4)
     (mkInstruction "STORE_NAME" 90 (Some 0) (VStr "x") 0) empty_stack_world
   = (Raise IndexError, empty_stack_world)).
Proof.
  apply (store_without_stack_entry (scenario_frame 4)
           (mkInstruction "STORE_NAME" 90 (Some 0) (VStr "x") 0)
           empty_stack_world IndexError).
  - by vm_compute.
  - reflexivity.
Defined.

Lemma simulator_error_keeps_record_witness :
  ∃ v',
    (@_log_changed_value (list Value) refusing_stack (scenario_frame 4)
       (mkInstruction "STORE_NAME" 90 (Some 0) (VStr "x") 0)
       scenario_world).1 = Raise (StackError "unsupported") ∧
    mutations
      (self (@_log_changed_value (list Value) refusing_stack
               (scenario_frame 4)
               (mkInstruction "STORE_NAME" 90 (Some 0) (VStr "x") 0)
               scenario_world).2)
      = mutations (self scenario_world)
        ++ [mkMutation (VStr "x") v' (VInt 1)] ∧
    value_stack
      (self (@_log_changed_value (list Value) refusing_stack
               (scenario_frame 4)
               (mkInstruction "STORE_NAME" 90 (Some 0) (VStr "x") 0)
               scenario_world).2)
      = [VInt 1; VInt 2].
Proof.
  apply (@simulator_error_keeps_record (list Value) refusing_stack
           (scenario_frame 4)
           (mkInstruction "STORE_NAME" 90 (Some 0) (VStr "x") 0)
           scenario_world (VInt 1) (VInt 1) (StackError "unsupported")
           [VInt 1; VInt 2] (λ _, False)).
  - by vm_compute.
  - by vm_compute.
  - apply no_object_copyable.
  - exact I.
  - reflexivity.
  - reflexivity.
Defined.

Lemma first_observation_near_creation_witness :
  mutations
    (self (observe (scenario_frame 0)
             (mkWorld (create_logger creating_frame) ∅)).2) = [] ∧
  value_stack
    (self (observe (scenario_frame 0)
             (mkWorld (create_logger creating_frame) ∅)).2) = [] ∧
  heap (observe (scenario_frame 0)
          (mkWorld (create_logger creating_frame) ∅)).2 = ∅.
Proof.
  refine (@first_observation_near_creation (list Value) example_stack
            hasjrel38 hasjabs38 creating_frame (scenario_frame 0) ∅ _).
  by vm_compute.
Defined.

Lemma observation_is_idempotent_witness :
  observe (scenario_frame 4) scenario_world_at_4
  = (Ok tt, scenario_world_at_4).
Proof.
  apply (observation_is_idempotent hasjrel38 hasjabs38 (scenario_frame 4)
           (scenario_frame 4) scenario_world scenario_world_at_4).
  - reflexivity.
  - by vm_compute.
Defined.
